(** * Genome-Automaton: the DFA and PDA engines and the automata factory

    A shallow embedding of [automata_engine.py], [pda_engine.py] and
    [automata_factory.py].

    Conventions of the embedding.
    - A Python [str] is a [string]; a character is an [ascii] (8-bit), and
      [str.upper] is the ASCII case mapping.  Indices, lengths and states are
      Python [int]s, modelled by [Z].
    - A method that mutates [self] takes the engine record and returns the
      updated record next to its return value.
    - A Python exception is a [Raise] in the [result] monad.
    - The narration string returned as third component by [step] is not
      modelled: it is built by f-strings over [int]s and [str]s only and has
      no influence on the state or on the accept flag. *)

From Stdlib Require Import ZArith Lia String Ascii List Sorted.
From stdpp Require Import base tactics option list strings gmap sorting.

Local Open Scope Z_scope.

(** ** Python strings *)

Module Py.

Definition len (s : string) : Z := Z.of_nat (String.length s).

(** [c.upper()] on one 8-bit character. *)
Definition upper_char (c : ascii) : ascii :=
  let n := N_of_ascii c in
  if ((97 <=? n) && (n <=? 122))%N then ascii_of_N (n - 32) else c.

(** [s.upper()] *)
Fixpoint upper (s : string) : string :=
  match s with
  | EmptyString => EmptyString
  | String c s' => String (upper_char c) (upper s')
  end.

(** [s[i]], negative indices counting from the end; [None] stands for the
    [IndexError] of an index out of range.  The result is the one-character
    string Python returns. *)
Definition index (s : string) (i : Z) : option string :=
  let j := if i <? 0 then i + len s else i in
  if (0 <=? j) && (j <? len s)
  then (λ c, String c EmptyString) <$> String.get (Z.to_nat j) s
  else None.

(** [s[lo:hi]] for [0 <= lo <= hi]. *)
Definition slice (s : string) (lo hi : Z) : string :=
  String.substring (Z.to_nat lo) (Z.to_nat (hi - lo)) s.

(** The characters of a string, as [for c in s] visits them. *)
Definition chars (s : string) : list ascii := list_ascii_of_string s.

End Py.

(** ** Exceptions *)

Inductive exn : Type :=
| IndexError
| ValueError (msg : string).

Inductive result (A : Type) : Type :=
| Ok (a : A)
| Raise (e : exn).
Arguments Ok {A} a.
Arguments Raise {A} e.

Global Instance result_ret : MRet result := @Ok.
Global Instance result_bind : MBind result := λ A B f m,
  match m with
  | Ok a => f a
  | Raise e => Raise e
  end.

(** A match window, an inclusive pair [(start, end)]. *)
Definition window : Type := (Z * Z)%type.

(** ** automata_engine.py: class DFA *)

Record DFA : Type := mkDFA {
  pattern : string;
  alphabet : list string;
  transitions : gmap (Z * string) Z;
  current_state : Z
}.

Definition set_transitions (d : DFA) (t : gmap (Z * string) Z) : DFA :=
  {| pattern := pattern d; alphabet := alphabet d;
     transitions := t; current_state := current_state d |}.

Definition set_current_state (d : DFA) (q : Z) : DFA :=
  {| pattern := pattern d; alphabet := alphabet d;
     transitions := transitions d; current_state := q |}.

(** The value stored at [(i, sym)] by the body of the inner loop of
    [_build_linear_chain].  [i] ranges over [range(n)], so [pattern[i]] and
    [pattern[0]] are in range there. *)
Definition chain_target (pat : string) (n i : Z) (sym : string) : Z :=
  if decide (Some sym = Py.index pat i)
  then (if decide (i = n - 1) then 0 else i + 1)
  else (if decide (Some sym = Py.index pat 0 ∧ i ≠ 0) then 1 else 0).

Definition _build_linear_chain (d : DFA) : DFA :=
  let n := Py.len (pattern d) in
  if decide (n = 0) then
    set_transitions d
      (foldl (λ t sym, <[(0, sym) := 0]> t) (transitions d) (alphabet d))
  else
    set_transitions d
      (foldl (λ t i,
                foldl (λ t sym, <[(i, sym) := chain_target (pattern d) n i sym]> t)
                      t (alphabet d))
             (transitions d) (seqZ 0 n)).

(** [DFA.__init__] *)
Definition DFA_init (pat : string) : DFA :=
  _build_linear_chain
    {| pattern := Py.upper pat;
       alphabet := ["A"; "T"; "G"; "C"]%string;
       transitions := ∅;
       current_state := 0 |}.

Definition DFA_reset (d : DFA) : DFA := set_current_state d 0.

(** [DFA.step]: the new engine, the new state and the accept flag.  The
    conjunction computing [is_match] is evaluated left to right and stops at
    the first false operand, so [pattern[-1]] is only evaluated after the two
    comparisons before it succeeded. *)
Definition DFA_step (d : DFA) (symbol : string) : result (DFA * (Z * bool)) :=
  let symbol := Py.upper symbol in
  if decide (symbol ∈ alphabet d) then
    let next_state := default 0 (transitions d !! (current_state d, symbol)) in
    is_match ←
      (if decide (current_state d = Py.len (pattern d) - 1) then
         if decide (next_state = 0) then
           match Py.index (pattern d) (-1) with
           | Some last => Ok (bool_decide (symbol = last))
           | None => Raise IndexError
           end
         else Ok false
       else Ok false);
    let d' := set_current_state d next_state in
    Ok (d', (current_state d', is_match))
  else
    Ok (d, (current_state d, false)).

(** The loop of [DFA.find_all_matches]: [i] is the index [enumerate] gives to
    the first of [bases]. *)
Fixpoint DFA_scan (d : DFA) (i : Z) (bases : list ascii) (matches : list window)
  : result (list window * DFA) :=
  match bases with
  | [] => Ok (matches, d)
  | base :: rest =>
      '(d', (_, is_match)) ← DFA_step d (String base EmptyString);
      let matches' :=
        if is_match : bool
        then matches ++ [(i - Py.len (pattern d') + 1, i)]
        else matches in
      DFA_scan d' (i + 1) rest matches'
  end.

Definition DFA_find_all_matches (d : DFA) (dna_sequence : string)
  : result (list window * DFA) :=
  let d := DFA_reset d in
  '(matches, d) ← DFA_scan d 0 (Py.chars dna_sequence) [];
  Ok (matches, DFA_reset d).


(** ** pda_engine.py: class PDA *)

(** [_comp]: the dictionary lookup with default ["?"]. *)
Definition _comp (base : string) : string :=
  if decide (base = "A") then "T"
  else if decide (base = "T") then "A"
  else if decide (base = "G") then "C"
  else if decide (base = "C") then "G"
  else "?".

Inductive pda_mode : Type := push | pop.

(** The fields [PDA.__init__] sets itself, and the pattern it hands to
    [BaseAutomaton.__init__] (which is declared in [automata_base.py]; the
    matching logic never reads the pattern). *)
Record PDA : Type := mkPDA {
  pda_pattern : string;
  min_len : Z;
  stack : list string;
  pos : Z;
  mode : pda_mode
}.

(** [PDA.__init__] *)
Definition PDA_init (pat : string) (requested_min_len : Z) : PDA :=
  {| pda_pattern := pat;
     min_len := Z.max 2 requested_min_len;
     stack := [];
     pos := 0;
     mode := push |}.

(** The default of the keyword argument [min_len]. *)
Definition PDA_default_min_len : Z := 4.

Definition PDA_reset (p : PDA) : PDA :=
  {| pda_pattern := pda_pattern p; min_len := min_len p;
     stack := []; pos := 0; mode := push |}.

(** [PDA.step]: the new engine, the mode and the accept flag. *)
Definition PDA_step (p : PDA) (symbol : string) : result (PDA * (pda_mode * bool)) :=
  let symbol := Py.upper symbol in
  let stack1 := stack p ++ [symbol] in
  let pos1 := pos p + 1 in
  let p' :=
    if decide (8 < Z.of_nat (length stack1)) then
      {| pda_pattern := pda_pattern p; min_len := min_len p;
         stack := tail stack1; pos := pos1; mode := pop |}
    else
      {| pda_pattern := pda_pattern p; min_len := min_len p;
         stack := stack1; pos := pos1; mode := push |} in
  Ok (p', (mode p', false)).

(** The guard of the [while] loop of [expand]; the two indexings are only
    evaluated after both bound checks succeeded. *)
Definition expand_guard (s : string) (n l r : Z) : result bool :=
  if decide (0 ≤ l) then
    if decide (r < n) then
      match Py.index s l, Py.index s r with
      | Some a, Some b => Ok (bool_decide (_comp a = b))
      | _, _ => Raise IndexError
      end
    else Ok false
  else Ok false.

(** The [while] loop of [expand].  Every iteration decrements [l] and the
    guard fails once [l] is negative, so [l + 1] iterations are enough: the
    loop is run with exactly that much fuel and leaves through its guard
    (see [expand_loop_exit]). *)
Fixpoint expand_loop (fuel : nat) (s : string) (n l r : Z) : result (Z * Z) :=
  match fuel with
  | O => Ok (l, r)
  | S fuel' =>
      go ← expand_guard s n l r;
      if go : bool then expand_loop fuel' s n (l - 1) (r + 1) else Ok (l, r)
  end.

(** The closure [expand(l, r)], with the list [matches] it appends to. *)
Definition expand (p : PDA) (s : string) (n : Z) (matches : list window) (l r : Z)
  : result (list window) :=
  '(l', r') ← expand_loop (Z.to_nat (l + 1)) s n l r;
  let L := l' + 1 in
  let R := r' - 1 in
  if decide (min_len p ≤ R - L + 1) then Ok (matches ++ [(L, R)]) else Ok matches.

(** Python's order on pairs of integers. *)
Definition window_le (w1 w2 : window) : Prop :=
  w1.1 < w2.1 ∨ (w1.1 = w2.1 ∧ w1.2 ≤ w2.2).

Global Instance window_le_dec : RelDecision window_le.
Proof. intros w1 w2. unfold window_le. apply _. Defined.

(** [sorted(set(matches))] *)
Definition sorted_set (matches : list window) : list window :=
  merge_sort window_le (remove_dups matches).

(** The loop [for i in range(n - 1): expand(i, i + 1)]. *)
Fixpoint PDA_centers (p : PDA) (s : string) (n : Z) (centers : list Z)
    (matches : list window) : result (list window) :=
  match centers with
  | [] => Ok matches
  | i :: rest =>
      matches' ← expand p s n matches i (i + 1);
      PDA_centers p s n rest matches'
  end.

Definition PDA_find_all_matches (p : PDA) (sequence : string)
  : result (list window * PDA) :=
  let s := Py.upper sequence in
  let n := Py.len s in
  matches ← PDA_centers p s n (seqZ 0 (n - 1)) [];
  Ok (sorted_set matches, p).

(** ** The engines behind one interface

    [reset], [step] and [find_all_matches] are called on whichever engine the
    factory returned.  The engines embedded here are [DFA] and [PDA]; the
    classes of [nfa_engine.py] and [enfa_engine.py] are not. *)

Inductive engine : Type :=
| DFA_engine (d : DFA)
| PDA_engine (p : PDA).

(** The first component of the tuple [step] returns. *)
Inductive state_repr : Type :=
| StateId (q : Z)
| Mode (m : pda_mode).

Definition reset (e : engine) : engine :=
  match e with
  | DFA_engine d => DFA_engine (DFA_reset d)
  | PDA_engine p => PDA_engine (PDA_reset p)
  end.

Definition step (e : engine) (symbol : string) : result (engine * (state_repr * bool)) :=
  match e with
  | DFA_engine d =>
      '(d', (q, is_match)) ← DFA_step d symbol;
      Ok (DFA_engine d', (StateId q, is_match))
  | PDA_engine p =>
      '(p', (m, is_match)) ← PDA_step p symbol;
      Ok (PDA_engine p', (Mode m, is_match))
  end.

Definition find_all_matches (e : engine) (sequence : string)
  : result (list window * engine) :=
  match e with
  | DFA_engine d =>
      '(matches, d') ← DFA_find_all_matches d sequence;
      Ok (matches, DFA_engine d')
  | PDA_engine p =>
      '(matches, p') ← PDA_find_all_matches p sequence;
      Ok (matches, PDA_engine p')
  end.

(** What a constructor call returns. *)
Inductive constructed : engine → Prop :=
| constructed_DFA (pat : string) :
    constructed (DFA_engine (DFA_init pat))
| constructed_PDA (pat : string) (requested_min_len : Z) :
    constructed (PDA_engine (PDA_init pat requested_min_len)).

(** The configurations the engine [e0] can be brought into: [e0] itself, and
    whatever [reset], a [step] that returned, or a [find_all_matches] that
    returned leaves behind. *)
Inductive reachable_from (e0 : engine) : engine → Prop :=
| reachable_start :
    reachable_from e0 e0
| reachable_reset (e : engine) :
    reachable_from e0 e → reachable_from e0 (reset e)
| reachable_step (e e' : engine) (symbol : string) (out : state_repr * bool) :
    reachable_from e0 e → step e symbol = Ok (e', out) → reachable_from e0 e'
| reachable_find_all_matches (e e' : engine) (sequence : string) (ms : list window) :
    reachable_from e0 e → find_all_matches e sequence = Ok (ms, e') →
    reachable_from e0 e'.

Definition reachable (e : engine) : Prop :=
  ∃ e0, constructed e0 ∧ reachable_from e0 e.

(** A caller feeding the characters of [symbols] to [DFA.step] one by one. *)
Fixpoint DFA_feed (d : DFA) (symbols : list ascii) : result DFA :=
  match symbols with
  | [] => Ok d
  | c :: rest =>
      '(d', _) ← DFA_step d (String c EmptyString);
      DFA_feed d' rest
  end.

(** [c] is one of the four bases, in either case. *)
Definition is_base (c : ascii) : bool :=
  bool_decide (String (Py.upper_char c) EmptyString ∈ ["A"; "T"; "G"; "C"]%string).

Definition all_bases (s : string) : bool := forallb is_base (Py.chars s).

(** ** automata_factory.py *)

Section Factory.

(** The string constants of [AutomataType] (declared in [automata_base.py])
    and the constructors of [NFA] and [EpsilonNFA], the two engine classes
    that are not embedded here, are parameters of the factory. *)
Variables TYPE_DFA TYPE_NFA TYPE_ENFA TYPE_PDA : string.
Variables NFA EpsilonNFA : Type.
Variable NFA_init : string → result NFA.
Variable EpsilonNFA_init : string → result EpsilonNFA.

Inductive automaton : Type :=
| Automaton_DFA (d : DFA)
| Automaton_NFA (a : NFA)
| Automaton_ENFA (a : EpsilonNFA)
| Automaton_PDA (p : PDA).

(** [pattern or "PALINDROME"] *)
Definition pattern_or_default (pat : string) : string :=
  if decide (pat = EmptyString) then "PALINDROME"%string else pat.

(** The dictionary literal, its entries inserted in the order written. *)
Definition automaton_map (pat : string) : gmap string (unit → result automaton) :=
  <[TYPE_PDA := λ _, Ok (Automaton_PDA
                           (PDA_init (pattern_or_default pat) PDA_default_min_len))]>
 (<[TYPE_ENFA := λ _, a ← EpsilonNFA_init pat; Ok (Automaton_ENFA a)]>
 (<[TYPE_NFA := λ _, a ← NFA_init pat; Ok (Automaton_NFA a)]>
 (<[TYPE_DFA := λ _, Ok (Automaton_DFA (DFA_init pat))]> ∅))).

Definition create_automaton (automata_type pat : string) : result automaton :=
  match automaton_map pat !! automata_type with
  | None =>
      Raise (ValueError ("Unsupported automata type: " +:+ automata_type))
  | Some make => make ()
  end.

End Factory.

Arguments Automaton_DFA {NFA EpsilonNFA} d.
Arguments Automaton_NFA {NFA EpsilonNFA} a.
Arguments Automaton_ENFA {NFA EpsilonNFA} a.
Arguments Automaton_PDA {NFA EpsilonNFA} p.

(** ** The linear chain as a function of the pattern's characters

    [chain_step pl q c] is the state and the accept flag [DFA.step] computes
    in state [q] on the character [c], for the engine whose uppercased pattern
    has the characters [pl]; [chain_run] is the loop of [find_all_matches].
    Both are proved equal to the code below ([DFA_step_chain],
    [DFA_scan_chain]); the properties of the engine are then read off them. *)

Definition chain_delta (pl : list ascii) (q : Z) (u : ascii) : Z * bool :=
  let n := Z.of_nat (length pl) in
  (if decide (pl !! Z.to_nat q = Some u)
   then (if decide (q = n - 1) then 0 else q + 1)
   else (if decide (pl !! 0%nat = Some u ∧ q ≠ 0) then 1 else 0),
   bool_decide (q = n - 1 ∧ pl !! Z.to_nat q = Some u)).

Definition chain_step (pl : list ascii) (q : Z) (c : ascii) : Z * bool :=
  if is_base c then chain_delta pl q (Py.upper_char c) else (q, false).

Fixpoint chain_run (pl : list ascii) (q i : Z) (bases : list ascii)
  : list window * Z :=
  match bases with
  | [] => ([], q)
  | c :: rest =>
      let '(q', m) := chain_step pl q c in
      let '(ws, qf) := chain_run pl q' (i + 1) rest in
      ((if m : bool then [(i - Z.of_nat (length pl) + 1, i)] else []) ++ ws, qf)
  end.

(** The states of the chain: [0 .. n-1], and state 0 alone for the empty
    pattern. *)
Definition state_ok (pl : list ascii) (q : Z) : Prop :=
  0 ≤ q < Z.max 1 (Z.of_nat (length pl)).

(** The invariant of the chain: in state [q] the text read so far ends with
    the first [q] characters of the pattern. *)
Definition chain_inv (pl consumed : list ascii) (q : Z) : Prop :=
  state_ok pl q ∧
  ∃ before, map Py.upper_char consumed = before ++ take (Z.to_nat q) pl.

(** The pattern [pl] occurs in [text] at the window [w]. *)
Definition occurs_at (pl text : list ascii) (w : window) : Prop :=
  w.2 - w.1 + 1 = Z.of_nat (length pl) ∧
  ∃ before after, text = before ++ pl ++ after ∧ Z.of_nat (length before) = w.1.

(** The window [w] of the sequence [S] has the length of the pattern [P] and
    spells it, case aside. *)
Definition window_spells_pattern (P S : string) (w : window) : Prop :=
  w.2 - w.1 + 1 = Py.len (Py.upper P) ∧
  Py.slice (Py.upper S) w.1 (w.2 + 1) = Py.upper P.

(** ** Complement palindromes *)

(** [_comp(s[l]) == s[r]], both indices in range. *)
Definition complement_pair (s : string) (l r : Z) : Prop :=
  ∃ a b, Py.index s l = Some a ∧ Py.index s r = Some b ∧ _comp a = b.

(** The window [w] lies inside [s] and at every offset [j] of it the
    complement of [s[start + j]] is [s[end - j]]. *)
Definition complement_palindrome (s : string) (w : window) : Prop :=
  0 ≤ w.1 ∧ w.2 < Py.len s ∧
  ∀ j, 0 ≤ j ≤ w.2 - w.1 → complement_pair s (w.1 + j) (w.2 - j).

(** The window cannot grow by one character on both sides. *)
Definition not_extendable (s : string) (w : window) : Prop :=
  w.1 = 0 ∨ w.2 = Py.len s - 1 ∨ ¬ complement_pair s (w.1 - 1) (w.2 + 1).

(** The guard of [expand] as a boolean. *)
Definition complements (s : string) (l r : Z) : bool :=
  bool_decide (0 ≤ l ∧ r < Py.len s) &&
  match Py.index s l, Py.index s r with
  | Some a, Some b => bool_decide (_comp a = b)
  | _, _ => false
  end.

(** [k] pairs around the centre [(i, i + 1)] are complementary and the next
    pair is not: [expand(i, i + 1)] stops after [k] iterations. *)
Definition radius (s : string) (i : Z) (k : nat) : Prop :=
  (∀ j : nat, (j < k)%nat →
      complements s (i - Z.of_nat j) (i + 1 + Z.of_nat j) = true) ∧
  complements s (i - Z.of_nat k) (i + 1 + Z.of_nat k) = false.

(** [complement_palindrome] as a boolean, for use on concrete sequences. *)
Definition complement_palindromeb (s : string) (w : window) : bool :=
  bool_decide (0 ≤ w.1 ∧ w.2 < Py.len s) &&
  forallb (λ j, complements s (w.1 + j) (w.2 - j)) (seqZ 0 (w.2 - w.1 + 1)).

(** [find_all_matches(S)] returns and leaves the engine in the configuration
    [reset()] establishes. *)
Definition leaves_initial_configuration (e : engine) (S : string) : Prop :=
  ∃ ms, find_all_matches e S = Ok (ms, reset e).

(** The palindrome finder omits no complement palindrome of [S] that is at
    least [min_len] long. *)
Definition reports_every_palindrome (p : PDA) (S : string) : Prop :=
  ∀ w, complement_palindrome (Py.upper S) w →
       min_len p ≤ w.2 - w.1 + 1 →
       ∃ ms p', PDA_find_all_matches p S = Ok (ms, p') ∧ In w ms.

(** ** automata_engine.py: the getters of class DFA *)

(** [list(range(len(self.pattern)))] *)
Definition DFA_get_states (d : DFA) : list Z := seqZ 0 (Py.len (pattern d)).

Definition DFA_get_initial_states (d : DFA) : gset Z := {[ 0 ]}.

Definition DFA_get_accept_states (d : DFA) : gset Z := {[ 0 ]}.

Definition DFA_get_current_states (d : DFA) : gset Z := {[ current_state d ]}.

(** The loop over [self.transitions.items()]:
    [nd.setdefault((s, sym), set()).add(ns)]. *)
Definition DFA_get_transitions (d : DFA) : gmap (Z * string) (gset Z) :=
  map_fold (λ k ns nd, <[k := default ∅ (nd !! k) ∪ {[ ns ]}]> nd)
           ∅ (transitions d).

Definition DFA_get_symbol_set (d : DFA) : list string := alphabet d.


(** [pattern[:k]] and [pattern[k:]] for any integer [k]: a negative [k]
    counts from the end, and the bound is clipped to [0 .. len]. *)
Definition Py_clip (s : string) (k : Z) : Z :=
  if decide (k < 0) then Z.max 0 (k + Py.len s) else Z.min k (Py.len s).

Definition Py_prefix (s : string) (k : Z) : string :=
  Py.slice s 0 (Py_clip s k).

Definition Py_suffix (s : string) (k : Z) : string :=
  Py.slice s (Py_clip s k) (Py.len s).

(** [DFA.get_state_description] *)
Definition DFA_get_state_description (d : DFA) (state : Z) : string :=
  if decide (state = 0) then
    "Start State: Looking for pattern start (also accept)"
  else
    "Partial Match: '" +:+ Py_prefix (pattern d) state +:+
    "' (need '" +:+ Py_suffix (pattern d) state +:+ "')".

(** ** pda_engine.py: the getters of class PDA *)

(** [list(self.stack)] *)
Definition PDA_get_stack (p : PDA) : list string := stack p.

Definition PDA_get_control_state (p : PDA) : pda_mode := mode p.

(** A caller feeding [symbols] to [PDA.step] one by one. *)
Fixpoint PDA_feed (p : PDA) (symbols : list string) : result PDA :=
  match symbols with
  | [] => Ok p
  | symbol :: rest =>
      '(p', _) ← PDA_step p symbol;
      PDA_feed p' rest
  end.

(** ** automata_factory.py: available_types

    The labels hold the characters U+2013 and U+03B5, which appear here as
    their UTF-8 bytes. *)
Definition available_types (TYPE_DFA TYPE_NFA TYPE_ENFA TYPE_PDA : string)
  : list (string * string) :=
  [(TYPE_DFA, "DFA – Exact literal matching"%string);
   (TYPE_NFA, "NFA – Alternatives (ATG|TAA|TGA)"%string);
   (TYPE_ENFA, "ε-NFA – Spacer ranges (TATA{1,10}TATA)"%string);
   (TYPE_PDA, "PDA – Complement palindromes (hairpins)"%string)].

(** ** Occurrences of a pattern *)

(** The window [w] lies inside [S] and spells [P]. *)
Definition occurrence (P S : string) (w : window) : Prop :=
  0 ≤ w.1 ∧ w.2 < Py.len S ∧ window_spells_pattern P S w.

(** The first character of the uppercased pattern does not occur in it
    again. *)
Definition first_char_unique (P : string) : bool :=
  match Py.chars (Py.upper P) with
  | [] => true
  | c :: rest => bool_decide (c ∉ rest)
  end.

(** * Facts about the string operations *)

Section PyFacts.

Lemma len_chars (s : string) : Py.len s = Z.of_nat (length (Py.chars s)).
Proof.
  unfold Py.len, Py.chars. f_equal.
  induction s as [|c s IH]; simpl; [reflexivity | now rewrite IH].
Qed.

Lemma chars_inj (s1 s2 : string) : Py.chars s1 = Py.chars s2 → s1 = s2.
Proof.
  unfold Py.chars. intros H.
  rewrite <- (string_of_list_ascii_of_string s1),
          <- (string_of_list_ascii_of_string s2).
  now rewrite H.
Qed.

Lemma chars_upper (s : string) :
  Py.chars (Py.upper s) = map Py.upper_char (Py.chars s).
Proof.
  unfold Py.chars. induction s as [|c s IH]; simpl; [reflexivity | now rewrite IH].
Qed.

Lemma len_upper (s : string) : Py.len (Py.upper s) = Py.len s.
Proof. rewrite !len_chars, chars_upper, length_map. reflexivity. Qed.

Lemma chars_append (s1 s2 : string) :
  Py.chars (s1 +:+ s2) = Py.chars s1 ++ Py.chars s2.
Proof.
  unfold Py.chars. induction s1 as [|c s1 IH]; simpl; [reflexivity | now rewrite IH].
Qed.


Lemma get_chars (k : nat) (s : string) : String.get k s = Py.chars s !! k.
Proof.
  unfold Py.chars. revert k.
  induction s as [|c s IH]; intros [|k]; simpl; auto.
Qed.

Lemma index_nonneg (s : string) (i : Z) :
  0 ≤ i →
  Py.index s i = (λ c, String c EmptyString) <$> (Py.chars s !! Z.to_nat i).
Proof.
  intros Hi. unfold Py.index.
  destruct (Z.ltb_spec i 0) as [?|_]; [lia|].
  destruct (Z.leb_spec 0 i) as [_|?]; [|lia].
  destruct (Z.ltb_spec i (Py.len s)) as [Hlt|Hge]; simpl.
  - now rewrite get_chars.
  - rewrite len_chars in Hge.
    rewrite (lookup_ge_None_2 (Py.chars s) (Z.to_nat i)) by lia.
    reflexivity.
Qed.

Lemma index_last (s : string) :
  Py.index s (-1)
  = (λ c, String c EmptyString) <$> (Py.chars s !! Z.to_nat (Py.len s - 1)).
Proof.
  unfold Py.index. change (-1 <? 0) with true. cbv beta iota zeta.
  replace (-1 + Py.len s) with (Py.len s - 1) by lia.
  destruct (Z.leb_spec 0 (Py.len s - 1)) as [Hle|Hlt]; cbn [andb].
  - destruct (Z.ltb_spec (Py.len s - 1) (Py.len s)) as [_|?]; [|lia].
    now rewrite get_chars.
  - assert (Hs : Py.len s = 0) by (unfold Py.len in *; lia).
    rewrite len_chars in Hs. destruct (Py.chars s); [reflexivity | simpl in Hs; lia].
Qed.

Lemma chars_substring (k m : nat) (s : string) :
  Py.chars (String.substring k m s) = take m (drop k (Py.chars s)).
Proof.
  unfold Py.chars. revert k m.
  induction s as [|c s IH]; intros k m.
  - destruct k, m; reflexivity.
  - destruct k as [|k].
    + destruct m as [|m]; simpl; [reflexivity|]. f_equal. apply (IH 0%nat m).
    + simpl. apply IH.
Qed.

Lemma chars_slice (s : string) (lo hi : Z) :
  Py.chars (Py.slice s lo hi)
  = take (Z.to_nat (hi - lo)) (drop (Z.to_nat lo) (Py.chars s)).
Proof. apply chars_substring. Qed.

Lemma all_bases_Forall (s : string) :
  all_bases s = true ↔ Forall (λ c, is_base c = true) (Py.chars s).
Proof.
  unfold all_bases. rewrite forallb_forall, Forall_forall.
  split; intros H c Hc; apply H; now apply list_elem_of_In.
Qed.

Lemma single_in_alphabet (c : ascii) :
  String (Py.upper_char c) EmptyString ∈ ["A"; "T"; "G"; "C"]%string
  ↔ is_base c = true.
Proof. unfold is_base. now rewrite bool_decide_eq_true. Qed.

End PyFacts.

(** * The transition table built by [_build_linear_chain] *)

Section ChainTable.

Lemma inner_loop_lookup (g : string → Z) (i : Z) (syms : list string)
    (t : gmap (Z * string) Z) (k : Z * string) :
  foldl (λ t sym, <[(i, sym) := g sym]> t) t syms !! k
  = if decide (k.1 = i ∧ k.2 ∈ syms) then Some (g k.2) else t !! k.
Proof.
  revert t. induction syms as [|sym syms IH]; intros t.
  - cbn [foldl]. destruct (decide _) as [[_ H]|_]; [inversion H | reflexivity].
  - cbn [foldl]. rewrite IH. destruct k as [j s]. cbn [fst snd].
    destruct (decide (j = i ∧ s ∈ syms)) as [[-> Hs]|Hn].
    + rewrite decide_True; [reflexivity|]. split; [reflexivity|]. now right.
    + destruct (decide ((i, sym) = (j, s))) as [Heq|Hne].
      * injection Heq as -> ->. rewrite lookup_insert_eq.
        rewrite decide_True; [reflexivity|]. split; [reflexivity|]. now left.
      * rewrite lookup_insert_ne by exact Hne.
        rewrite decide_False; [reflexivity|].
        intros [-> Hin]. apply elem_of_cons in Hin as [->|Hin]; tauto.
Qed.

Lemma outer_loop_lookup (g : Z → string → Z) (rows : list Z) (syms : list string)
    (t : gmap (Z * string) Z) (k : Z * string) :
  foldl (λ t i, foldl (λ t sym, <[(i, sym) := g i sym]> t) t syms) t rows !! k
  = if decide (k.1 ∈ rows ∧ k.2 ∈ syms) then Some (g k.1 k.2) else t !! k.
Proof.
  revert t. induction rows as [|i rows IH]; intros t.
  - cbn [foldl]. destruct (decide _) as [[H _]|_]; [inversion H | reflexivity].
  - cbn [foldl]. rewrite IH, (inner_loop_lookup (g i)).
    destruct (decide (k.1 ∈ rows ∧ k.2 ∈ syms)) as [[Hr Hs]|Hn].
    + rewrite decide_True; [reflexivity|]. split; [now right | exact Hs].
    + destruct (decide (k.1 = i ∧ k.2 ∈ syms)) as [[Hi Hs]|Hn'].
      * rewrite decide_True; [now rewrite Hi|]. split; [rewrite Hi; now left | exact Hs].
      * rewrite decide_False; [reflexivity|].
        intros [Hin Hs]. apply elem_of_cons in Hin as [Hi|Hin]; tauto.
Qed.

Lemma DFA_init_pattern (pat : string) : pattern (DFA_init pat) = Py.upper pat.
Proof. unfold DFA_init, _build_linear_chain. cbv zeta. now case_decide. Qed.

Lemma DFA_init_alphabet (pat : string) :
  alphabet (DFA_init pat) = ["A"; "T"; "G"; "C"]%string.
Proof. unfold DFA_init, _build_linear_chain. cbv zeta. now case_decide. Qed.

Lemma DFA_init_current_state (pat : string) : current_state (DFA_init pat) = 0.
Proof. unfold DFA_init, _build_linear_chain. cbv zeta. now case_decide. Qed.

(** The table of a non-empty pattern: one row per index of the pattern. *)
Lemma DFA_init_transitions (pat : string) (i : Z) (sym : string) :
  Py.len (Py.upper pat) ≠ 0 →
  transitions (DFA_init pat) !! (i, sym)
  = if decide (0 ≤ i < Py.len (Py.upper pat) ∧ sym ∈ ["A"; "T"; "G"; "C"]%string)
    then Some (chain_target (Py.upper pat) (Py.len (Py.upper pat)) i sym)
    else None.
Proof.
  intros Hn. unfold DFA_init, _build_linear_chain. cbv zeta. cbn [pattern].
  case_decide; [contradiction|]. cbn [transitions set_transitions alphabet pattern].
  rewrite (outer_loop_lookup (chain_target (Py.upper pat) (Py.len (Py.upper pat)))).
  cbn [fst snd]. rewrite lookup_empty.
  destruct (decide (0 ≤ i < _ ∧ _)) as [[Hi Hs]|Hn'].
  - rewrite decide_True; [reflexivity|]. split; [|exact Hs].
    apply elem_of_seqZ. lia.
  - rewrite decide_False; [reflexivity|]. intros [Hi Hs]. apply Hn'.
    apply elem_of_seqZ in Hi. split; [lia | exact Hs].
Qed.

(** The table of the empty pattern: the single row of state 0. *)
Lemma DFA_init_transitions_empty (pat : string) (i : Z) (sym : string) :
  Py.len (Py.upper pat) = 0 →
  transitions (DFA_init pat) !! (i, sym)
  = if decide (i = 0 ∧ sym ∈ ["A"; "T"; "G"; "C"]%string) then Some 0 else None.
Proof.
  intros Hn. unfold DFA_init, _build_linear_chain. cbv zeta. cbn [pattern].
  case_decide; [|contradiction]. cbn [transitions set_transitions alphabet].
  rewrite (inner_loop_lookup (λ _, 0)). cbn [fst snd]. rewrite lookup_empty.
  reflexivity.
Qed.

End ChainTable.

Section ChainRefinement.

Variable pat : string.
Let D : DFA := DFA_init pat.
Let pl : list ascii := Py.chars (Py.upper pat).

Lemma DFA_init_reset : set_current_state D 0 = D.
Proof.
  subst D. unfold DFA_init, _build_linear_chain. cbv zeta.
  case_decide; reflexivity.
Qed.

Lemma len_pl : Py.len (Py.upper pat) = Z.of_nat (length pl).
Proof. apply len_chars. Qed.

Lemma index_pl (i : Z) (u : ascii) :
  0 ≤ i →
  Some (String u EmptyString) = Py.index (Py.upper pat) i
  ↔ pl !! Z.to_nat i = Some u.
Proof.
  intros Hi. rewrite index_nonneg by exact Hi. fold pl.
  destruct (pl !! Z.to_nat i) as [x|]; simpl.
  - split; intros H; injection H as ->; reflexivity.
  - split; discriminate.
Qed.

Lemma chain_delta_state_ok (q : Z) (u : ascii) :
  state_ok pl q → state_ok pl (chain_delta pl q u).1.
Proof.
  unfold state_ok, chain_delta. intros Hq. cbn [fst].
  destruct (decide (pl !! Z.to_nat q = Some u)) as [Hm|Hm].
  - apply lookup_lt_Some in Hm. case_decide; lia.
  - case_decide as H1; [|lia]. destruct H1 as [H1 ?].
    apply lookup_lt_Some in H1. lia.
Qed.

Lemma chain_step_state_ok (q : Z) (c : ascii) :
  state_ok pl q → state_ok pl (chain_step pl q c).1.
Proof.
  intros Hq. unfold chain_step. destruct (is_base c); [|exact Hq].
  now apply chain_delta_state_ok.
Qed.

(** [DFA.step] on one character, in any state of the chain. *)
Lemma DFA_step_chain (q : Z) (c : ascii) :
  state_ok pl q →
  DFA_step (set_current_state D q) (String c EmptyString)
  = Ok (set_current_state D (chain_step pl q c).1, chain_step pl q c).
Proof.
  intros Hq. unfold DFA_step, chain_step.
  change (Py.upper (String c EmptyString))
    with (String (Py.upper_char c) EmptyString).
  cbn [alphabet set_current_state current_state transitions pattern].
  subst D. rewrite DFA_init_alphabet, DFA_init_pattern.
  destruct (is_base c) eqn:Hb.
  2:{ rewrite decide_False; [reflexivity|].
      rewrite single_in_alphabet. congruence. }
  rewrite decide_True by (now apply single_in_alphabet).
  apply single_in_alphabet in Hb.
  set (u := Py.upper_char c) in *.
  destruct (decide (pl = [])) as [Hnil|Hne].
  - (* the empty pattern *)
    assert (Hn : Py.len (Py.upper pat) = 0) by (rewrite len_pl, Hnil; reflexivity).
    assert (q = 0) as -> by (unfold state_ok in Hq; rewrite Hnil in Hq; simpl in Hq; lia).
    rewrite DFA_init_transitions_empty by exact Hn.
    rewrite decide_True by (split; [reflexivity | exact Hb]).
    rewrite Hn. cbn [default]. rewrite decide_False by lia.
    unfold chain_delta. rewrite Hnil. cbn.
    rewrite bool_decide_eq_false_2 by (intros [? ?]; discriminate).
    reflexivity.
  - assert (Hn : 0 < Z.of_nat (length pl)) by (destruct pl; [contradiction | simpl; lia]).
    assert (Hq' : 0 ≤ q < Z.of_nat (length pl)) by (unfold state_ok in Hq; lia).
    rewrite DFA_init_transitions by (rewrite len_pl; lia).
    rewrite decide_True by (rewrite len_pl; split; [exact Hq' | exact Hb]).
    cbn [default]. rewrite index_last. fold pl. rewrite len_pl.
    destruct (lookup_lt_is_Some_2 pl (Z.to_nat (Z.of_nat (length pl) - 1)))
      as [last Hlast]; [lia|].
    rewrite Hlast. cbn [fmap option_fmap option_map].
    unfold chain_target, chain_delta, id.
    rewrite (decide_ext _ (pl !! Z.to_nat q = Some u)) by (apply index_pl; lia).
    rewrite (decide_ext (Some _ = Py.index _ 0 ∧ q ≠ 0)
                        (pl !! 0%nat = Some u ∧ q ≠ 0))
      by (rewrite (index_pl 0 u) by lia; reflexivity).
    repeat case_decide; cbn; repeat case_bool_decide; try reflexivity.
    all: exfalso; try subst q; try rewrite Hlast in *;
      repeat match goal with
             | H : ¬ (_ ∧ _) |- _ => apply H; clear H; split
             | H : String _ _ = String _ _ |- _ => injection H as H
             end; try congruence; try lia.
Qed.

Lemma state_ok_0 : state_ok pl 0.
Proof. unfold state_ok. lia. Qed.

(** The loop of [find_all_matches], started in any state of the chain. *)
Lemma DFA_scan_chain (q i : Z) (bases : list ascii) (acc : list window) :
  state_ok pl q →
  DFA_scan (set_current_state D q) i bases acc
  = Ok (acc ++ (chain_run pl q i bases).1,
        set_current_state D (chain_run pl q i bases).2).
Proof.
  revert q i acc. induction bases as [|c rest IH]; intros q i acc Hq.
  - cbn. rewrite app_nil_r. reflexivity.
  - cbn [DFA_scan chain_run]. rewrite DFA_step_chain by exact Hq.
    pose proof (chain_step_state_ok q c Hq) as Hq'.
    destruct (chain_step pl q c) as [q' m]. cbn [fst] in *.
    cbn [mbind result_bind]. cbn [pattern set_current_state].
    subst D. rewrite DFA_init_pattern, len_pl.
    rewrite IH by exact Hq'.
    destruct (chain_run pl q' (i + 1) rest) as [ws qf]. cbn [fst snd].
    destruct m; [rewrite <- app_assoc|]; reflexivity.
Qed.

Lemma DFA_feed_chain (q i : Z) (bases : list ascii) :
  state_ok pl q →
  DFA_feed (set_current_state D q) bases
  = Ok (set_current_state D (chain_run pl q i bases).2).
Proof.
  revert q i. induction bases as [|c rest IH]; intros q i Hq.
  - reflexivity.
  - cbn [DFA_feed chain_run]. rewrite DFA_step_chain by exact Hq.
    pose proof (chain_step_state_ok q c Hq) as Hq'.
    destruct (chain_step pl q c) as [q' m]. cbn [fst] in *.
    cbn [mbind result_bind]. rewrite (IH q' (i + 1)) by exact Hq'.
    destruct (chain_run pl q' (i + 1) rest) as [ws qf]. reflexivity.
Qed.

(** [find_all_matches] returns, whatever state the engine was left in, and
    hands the engine back as it was constructed. *)
Lemma DFA_find_all_matches_chain (q : Z) (S : string) :
  DFA_find_all_matches (set_current_state D q) S
  = Ok ((chain_run pl 0 0 (Py.chars S)).1, D).
Proof.
  unfold DFA_find_all_matches, DFA_reset.
  change (set_current_state (set_current_state D q) 0)
    with (set_current_state D 0).
  rewrite DFA_scan_chain by exact state_ok_0.
  cbn [mbind result_bind app]. f_equal. f_equal.
  exact DFA_init_reset.
Qed.

End ChainRefinement.

(** * The invariant of the chain

    On a sequence of bases the state counts how much of the pattern the
    characters read last spell: in state [q] the text read so far ends with
    the first [q] characters of the pattern. *)

Section ChainInvariant.

Variable pl : list ascii.
Let n : Z := Z.of_nat (length pl).

Lemma chain_inv_nil : chain_inv pl [] 0.
Proof. split; [unfold state_ok; lia | exists []; reflexivity]. Qed.

Lemma chain_delta_inv (pre : list ascii) (q : Z) (c : ascii) :
  chain_inv pl pre q →
  chain_inv pl (pre ++ [c]) (chain_delta pl q (Py.upper_char c)).1 ∧
  ((chain_delta pl q (Py.upper_char c)).2 = true →
   occurs_at pl (map Py.upper_char (pre ++ [c]))
             (Z.of_nat (length pre) - n + 1, Z.of_nat (length pre))).
Proof.
  intros [Hq [before Hbefore]].
  set (u := Py.upper_char c).
  assert (Hmap : map Py.upper_char (pre ++ [c]) = map Py.upper_char pre ++ [u])
    by (rewrite map_app; reflexivity).
  unfold chain_delta, chain_inv, occurs_at, state_ok in *. fold n in Hq |- *.
  cbn [fst snd]. rewrite Hmap, Hbefore.
  destruct (decide (pl !! Z.to_nat q = Some u)) as [Hm|Hm].
  - pose proof (lookup_lt_Some _ _ _ Hm) as Hlt.
    pose proof (take_S_r _ _ _ Hm) as Htake.
    destruct (decide (q = n - 1)) as [Hlast|Hlast].
    + split.
      * split; [lia|]. exists ((before ++ take (Z.to_nat q) pl) ++ [u]).
        now rewrite app_nil_r.
      * intros _. split; [lia|].
        exists before, []. rewrite app_nil_r, <- app_assoc, <- Htake.
        rewrite take_ge by (subst n; lia). split; [reflexivity|].
        apply (f_equal (@length ascii)) in Hbefore.
        rewrite length_map, length_app, length_take in Hbefore.
        subst n. lia.
    + split.
      * split; [subst n; lia|]. exists before.
        rewrite <- app_assoc, <- Htake. do 2 f_equal. lia.
      * rewrite bool_decide_eq_false_2 by (intros [? ?]; contradiction).
        discriminate.
  - split.
    + destruct (decide (pl !! 0%nat = Some u ∧ q ≠ 0)) as [[H0 Hq0]|_].
      * pose proof (lookup_lt_Some _ _ _ H0) as Hlt.
        split; [subst n; lia|].
        exists (before ++ take (Z.to_nat q) pl).
        change (Z.to_nat 1) with 1%nat.
        rewrite (take_S_r pl 0 u H0). reflexivity.
      * split; [lia|]. exists ((before ++ take (Z.to_nat q) pl) ++ [u]).
        now rewrite app_nil_r.
    + rewrite bool_decide_eq_false_2 by (intros [? ?]; contradiction).
      discriminate.
Qed.

(** Every window the scan reports has the length of the pattern, on any
    input. *)
Lemma chain_run_window_length (bases : list ascii) (q i : Z) (w : window) :
  w ∈ (chain_run pl q i bases).1 → w.2 - w.1 + 1 = n ∧ i ≤ w.2.
Proof.
  revert q i. induction bases as [|c rest IH]; intros q i.
  - cbn. intros H. inversion H.
  - cbn [chain_run]. destruct (chain_step pl q c) as [q' m].
    specialize (IH q' (i + 1)).
    destruct (chain_run pl q' (i + 1) rest) as [ws qf]. cbn [fst] in *.
    rewrite elem_of_app. intros [Hw|Hw].
    + destruct m; [|inversion Hw].
      apply list_elem_of_singleton in Hw. subst w. cbn. subst n. lia.
    + apply IH in Hw. lia.
Qed.

(** The windows are reported in the order of their ends, each end once. *)
Lemma chain_run_increasing (bases : list ascii) (q i : Z) :
  StronglySorted (λ w1 w2 : window, w1.2 < w2.2) (chain_run pl q i bases).1.
Proof.
  revert q i. induction bases as [|c rest IH]; intros q i.
  - constructor.
  - cbn [chain_run]. destruct (chain_step pl q c) as [q' m].
    specialize (IH q' (i + 1)).
    pose proof (λ w, chain_run_window_length rest q' (i + 1) w) as Hlater.
    destruct (chain_run pl q' (i + 1) rest) as [ws qf]. cbn [fst] in *.
    destruct m; [|exact IH]. cbn [app]. constructor; [exact IH|].
    apply Forall_forall. intros w Hw. apply Hlater in Hw. cbn. lia.
Qed.

(** On a sequence of bases the scan keeps the invariant, and the pattern
    occurs at every window it reports. *)
Lemma chain_run_inv (bases pre : list ascii) (q : Z) :
  Forall (λ c, is_base c = true) bases →
  chain_inv pl pre q →
  chain_inv pl (pre ++ bases) (chain_run pl q (Z.of_nat (length pre)) bases).2 ∧
  ∀ w, w ∈ (chain_run pl q (Z.of_nat (length pre)) bases).1 →
       occurs_at pl (map Py.upper_char (pre ++ bases)) w.
Proof.
  revert pre q. induction bases as [|c rest IH]; intros pre q Hbases Hinv.
  - cbn. rewrite app_nil_r. split; [exact Hinv|]. intros w H. inversion H.
  - apply Forall_cons in Hbases as [Hc Hrest].
    cbn [chain_run]. unfold chain_step. rewrite Hc.
    destruct (chain_delta_inv pre q c Hinv) as [Hinv' Hocc].
    destruct (chain_delta pl q (Py.upper_char c)) as [q' m]. cbn [fst snd] in *.
    specialize (IH (pre ++ [c]) q' Hrest Hinv').
    rewrite length_app in IH. cbn [length] in IH.
    replace (Z.of_nat (length pre + 1)) with (Z.of_nat (length pre) + 1) in IH by lia.
    rewrite <- app_assoc in IH. cbn [app] in IH.
    destruct (chain_run pl q' (Z.of_nat (length pre) + 1) rest) as [ws qf].
    cbn [fst snd] in *. destruct IH as [IHinv IHocc].
    split; [exact IHinv|]. intros w. rewrite elem_of_app. intros [Hw|Hw].
    + destruct m; [|inversion Hw].
      apply list_elem_of_singleton in Hw. subst w.
      destruct (Hocc eq_refl) as [Hlen (before & after & Htext & Hstart)].
      split; [exact Hlen|].
      exists before, (after ++ map Py.upper_char rest).
      split; [|exact Hstart].
      rewrite (cons_middle c pre rest), app_assoc, map_app, Htext.
      now rewrite <- !app_assoc.
    + now apply IHocc.
Qed.

End ChainInvariant.

(** * From lists of characters back to strings *)

Section Windows.

Lemma occurs_at_slice (P' S' : string) (w : window) :
  occurs_at (Py.chars P') (Py.chars S') w →
  0 ≤ w.1 ∧ w.2 < Py.len S' ∧ Py.slice S' w.1 (w.2 + 1) = P'.
Proof.
  intros [Hlen (before & after & Htext & Hstart)].
  assert (Htotal : Py.len S'
                   = Z.of_nat (length before) + Z.of_nat (length (Py.chars P'))
                     + Z.of_nat (length after)).
  { rewrite len_chars, Htext, !length_app. lia. }
  split; [lia|]. split; [lia|].
  apply chars_inj. rewrite chars_slice, Htext.
  replace (Z.to_nat w.1) with (length before) by lia.
  rewrite drop_app_length.
  replace (Z.to_nat (w.2 + 1 - w.1)) with (length (Py.chars P')) by lia.
  apply take_app_length.
Qed.

Lemma chain_inv_slice (P' consumed : string) (q : Z) :
  chain_inv (Py.chars P') (Py.chars consumed) q →
  0 ≤ q ≤ Py.len consumed ∧
  Py.slice (Py.upper consumed) (Py.len consumed - q) (Py.len consumed)
  = Py.slice P' 0 q.
Proof.
  intros [Hq [before Hbefore]]. unfold state_ok in Hq.
  assert (Hk : length (take (Z.to_nat q) (Py.chars P')) = Z.to_nat q)
    by (rewrite length_take; lia).
  assert (Hlen : Py.len consumed = Z.of_nat (length before) + q).
  { rewrite len_chars, <- (length_map Py.upper_char), Hbefore, length_app. lia. }
  split; [lia|].
  apply chars_inj. rewrite !chars_slice, chars_upper, Hbefore.
  replace (Z.to_nat (Py.len consumed - q)) with (length before) by lia.
  rewrite drop_app_length.
  replace (Z.to_nat (Py.len consumed - (Py.len consumed - q))) with (Z.to_nat q) by lia.
  rewrite Z.sub_0_r. cbn [Z.to_nat drop].
  apply take_idemp.
Qed.

End Windows.

(** * The configurations of a DFA engine *)

Section DFAReachable.

Variable pat : string.
Let D : DFA := DFA_init pat.
Let pl : list ascii := Py.chars (Py.upper pat).

(** A symbol [step] takes for a base is a single character. *)
Lemma base_symbol_single (symbol : string) :
  Py.upper symbol ∈ ["A"; "T"; "G"; "C"]%string →
  ∃ c, symbol = String c EmptyString.
Proof.
  intros H. destruct symbol as [|c [|c' rest]].
  - exfalso. cbn in H. repeat (apply elem_of_cons in H as [H|H]; [discriminate|]).
    inversion H.
  - exists c. reflexivity.
  - exfalso. cbn in H. repeat (apply elem_of_cons in H as [H|H]; [discriminate|]).
    inversion H.
Qed.

(** [DFA.step] returns on every symbol, and stays inside the chain. *)
Lemma DFA_step_total (q : Z) (symbol : string) :
  state_ok pl q →
  ∃ q' m, DFA_step (set_current_state D q) symbol
          = Ok (set_current_state D q', (q', m))
          ∧ state_ok pl q'.
Proof.
  intros Hq.
  destruct (decide (Py.upper symbol ∈ ["A"; "T"; "G"; "C"]%string)) as [Hin|Hout].
  - destruct (base_symbol_single symbol Hin) as [c ->].
    exists (chain_step pl q c).1, (chain_step pl q c).2. split.
    + subst D pl. rewrite DFA_step_chain by exact Hq.
      now destruct (chain_step _ q c).
    + now apply chain_step_state_ok.
  - exists q, false. split; [|exact Hq].
    unfold DFA_step. cbn [alphabet set_current_state].
    subst D. rewrite DFA_init_alphabet. rewrite decide_False by exact Hout.
    reflexivity.
Qed.

(** Every configuration of the engine built from [pat] is that engine in
    some state of its chain. *)
Lemma DFA_reachable_inv (e : engine) :
  reachable_from (DFA_engine D) e →
  ∃ q, state_ok pl q ∧ e = DFA_engine (set_current_state D q).
Proof.
  induction 1 as [|e Hreach IH|e e' symbol out Hreach IH Hstep
                  |e e' S ms Hreach IH Hfind].
  - exists 0. split; [apply state_ok_0|]. subst D. now rewrite DFA_init_reset.
  - destruct IH as [q [Hq ->]]. exists 0. split; [apply state_ok_0 | reflexivity].
  - destruct IH as [q [Hq ->]].
    destruct (DFA_step_total q symbol Hq) as (q' & m & Hq' & Hok).
    cbn [step] in Hstep. rewrite Hq' in Hstep. cbn in Hstep.
    injection Hstep as <- _. exists q'. split; [exact Hok | reflexivity].
  - destruct IH as [q [Hq ->]].
    cbn [find_all_matches] in Hfind. subst D.
    rewrite DFA_find_all_matches_chain in Hfind. cbn in Hfind.
    injection Hfind as _ <-. exists 0.
    split; [apply state_ok_0 | now rewrite DFA_init_reset].
Qed.

End DFAReachable.

(** * Properties of the DFA engine *)

Lemma DFA_scan_sound (P S : string) (w : window) :
  all_bases S = true →
  w ∈ (chain_run (Py.chars (Py.upper P)) 0 0 (Py.chars S)).1 →
  0 ≤ w.1 ∧ w.2 < Py.len S ∧ window_spells_pattern P S w.
Proof.
  intros Hbases Hw. apply all_bases_Forall in Hbases.
  destruct (chain_run_inv (Py.chars (Py.upper P)) (Py.chars S) [] 0 Hbases
              (chain_inv_nil _)) as [_ Hocc].
  specialize (Hocc w Hw). cbn [app] in Hocc. rewrite <- chars_upper in Hocc.
  pose proof Hocc as [Hlen _].
  apply occurs_at_slice in Hocc as (H1 & H2 & H3).
  rewrite len_upper in H2. rewrite <- len_chars in Hlen.
  repeat split; assumption.
Qed.

(** No window is reported twice: the ends of the reported windows increase
    strictly. *)
Lemma DFA_matches_increasing (P S : string) :
  ∃ ms, DFA_find_all_matches (DFA_init P) S = Ok (ms, DFA_init P) ∧
        StronglySorted (λ w1 w2 : window, w1.2 < w2.2) ms.
Proof.
  pose proof (DFA_find_all_matches_chain P 0 S) as Hrun.
  rewrite DFA_init_reset in Hrun.
  eexists. split; [exact Hrun | apply chain_run_increasing].
Qed.

Example DFA_scenario_ATG :
  DFA_find_all_matches (DFA_init "ATG") "CATGATG"
  = Ok ([(1, 3); (4, 6)], DFA_init "ATG").
Proof. vm_compute. reflexivity. Qed.

(** C1 (as stated): every window [find_all_matches] reports spells the
    pattern.  It fails on a sequence with a character that is not a base:
    [step] ignores the ["N"] of ["ANT"], so that the chain for ["AT"] accepts
    on the ["T"] and the window reported, [(1, 2)], reads ["NT"]. *)
Lemma DFA_window_after_ignored_symbol :
  ¬ (∀ ms d' w,
       DFA_find_all_matches (DFA_init "AT") "ANT" = Ok (ms, d') →
       In w ms → window_spells_pattern "AT" "ANT" w).
Proof.
  intros H.
  destruct (H [(1, 2)] (DFA_init "AT") (1, 2)) as [_ Hspell].
  - vm_compute. reflexivity.
  - left. reflexivity.
  - vm_compute in Hspell. discriminate.
Qed.

(** C1 (amended): for the DFA engine built from any pattern [P] and any
    sequence [S], [find_all_matches] returns, and every window it reports has
    the length of the uppercased pattern; when every character of [S] is one
    of A, T, G, C in either case, the window lies inside [S] and the
    uppercased characters of [S] in it are the uppercased pattern. *)
Theorem DFA_matches_spell_pattern (P S : string) :
  (∃ ms, DFA_find_all_matches (DFA_init P) S = Ok (ms, DFA_init P)) ∧
  (∀ ms d' w,
     DFA_find_all_matches (DFA_init P) S = Ok (ms, d') →
     In w ms →
     w.2 - w.1 + 1 = Py.len (Py.upper P) ∧
     (all_bases S = true →
      0 ≤ w.1 ∧ w.2 < Py.len S ∧ window_spells_pattern P S w)).
Proof.
  pose proof (DFA_find_all_matches_chain P 0 S) as Hrun.
  rewrite DFA_init_reset in Hrun.
  split; [eexists; exact Hrun|].
  intros ms d' w Hfind Hw. rewrite Hrun in Hfind. injection Hfind as <- _.
  apply list_elem_of_In in Hw. split.
  - apply chain_run_window_length in Hw as [Hlen _].
    now rewrite len_chars.
  - intros Hbases. now apply DFA_scan_sound.
Qed.

Lemma DFA_matches_spell_pattern_witness :
  6 - 4 + 1 = Py.len (Py.upper "atg") ∧
  0 ≤ 4 ∧ 6 < Py.len "CATGATG" ∧ window_spells_pattern "atg" "CATGATG" (4, 6).
Proof.
  destruct (DFA_matches_spell_pattern "atg" "CATGATG") as [_ H].
  destruct (H [(1, 3); (4, 6)] (DFA_init "atg") (4, 6)) as [Hlen Hspell].
  - vm_compute. reflexivity.
  - right. left. reflexivity.
  - split; [exact Hlen|]. apply Hspell. vm_compute. reflexivity.
Defined.

(** C2: the engine is asked to report every occurrence of the pattern,
    overlapping ones included.  It does not: after the match of ["AAA"] at
    [(0, 2)] in ["AAAA"] the chain is back in state 0, and the occurrence at
    [(1, 3)] is not reported; in ["AAAT"] the occurrence of ["AAT"] at
    [(1, 3)] is lost when the third ["A"] sends state 2 to state 1. *)
Theorem DFA_misses_occurrences :
  DFA_find_all_matches (DFA_init "AAA") "AAAA" = Ok ([(0, 2)], DFA_init "AAA") ∧
  window_spells_pattern "AAA" "AAAA" (1, 3) ∧
  DFA_find_all_matches (DFA_init "AAT") "AAAT" = Ok ([], DFA_init "AAT") ∧
  window_spells_pattern "AAT" "AAAT" (1, 3).
Proof. vm_compute. repeat split; reflexivity. Qed.

(** C5: for the DFA engine built from a non-empty pattern [P] and a sequence
    [S] of bases (A, T, G, C in either case): after any prefix of [S] has
    been fed to [step] from the reset state, the current state [i] is at most
    the number of symbols fed, and the last [i] of them spell, uppercased,
    the first [i] characters of the uppercased pattern; and every window
    [find_all_matches] reports on [S] spells the pattern. *)
Theorem DFA_prefix_invariant (P S : string) :
  P ≠ EmptyString →
  all_bases S = true →
  (∀ consumed rest,
     S = consumed +:+ rest →
     ∃ d', DFA_feed (DFA_reset (DFA_init P)) (Py.chars consumed) = Ok d' ∧
           0 ≤ current_state d' ≤ Py.len consumed ∧
           Py.slice (Py.upper consumed)
                    (Py.len consumed - current_state d') (Py.len consumed)
           = Py.slice (Py.upper P) 0 (current_state d')) ∧
  (∃ ms, DFA_find_all_matches (DFA_init P) S = Ok (ms, DFA_init P) ∧
         ∀ w, In w ms →
              0 ≤ w.1 ∧ w.2 < Py.len S ∧ window_spells_pattern P S w).
Proof.
  intros _ Hbases. split.
  - intros consumed rest ->.
    apply all_bases_Forall in Hbases. rewrite chars_append in Hbases.
    apply Forall_app in Hbases as [Hconsumed _].
    unfold DFA_reset.
    rewrite (DFA_feed_chain P 0 0) by apply state_ok_0.
    eexists. split; [reflexivity|]. cbn [current_state set_current_state].
    destruct (chain_run_inv (Py.chars (Py.upper P)) (Py.chars consumed) [] 0
                Hconsumed (chain_inv_nil _)) as [Hinv _].
    cbn [app length] in Hinv. now apply chain_inv_slice in Hinv.
  - pose proof (DFA_find_all_matches_chain P 0 S) as Hrun.
    rewrite DFA_init_reset in Hrun.
    eexists. split; [exact Hrun|].
    intros w Hw. apply list_elem_of_In in Hw. now apply DFA_scan_sound.
Qed.

Lemma DFA_prefix_invariant_witness :
  ∃ d', DFA_feed (DFA_reset (DFA_init "ATG")) (Py.chars "catga") = Ok d' ∧
        0 ≤ current_state d' ≤ Py.len "catga" ∧
        Py.slice (Py.upper "catga") (Py.len "catga" - current_state d')
                 (Py.len "catga")
        = Py.slice (Py.upper "ATG") 0 (current_state d').
Proof.
  assert (Hne : "ATG"%string ≠ EmptyString) by discriminate.
  assert (Hbases : all_bases "catgatg" = true) by (vm_compute; reflexivity).
  destruct (DFA_prefix_invariant "ATG" "catgatg" Hne Hbases) as [H _].
  apply (H "catga"%string "tg"%string). reflexivity.
Defined.

Lemma chain_step_empty (c : ascii) : chain_step [] 0 c = (0, false).
Proof.
  unfold chain_step, chain_delta. destruct (is_base c); [|reflexivity].
  cbn. rewrite bool_decide_eq_false_2 by (intros [? ?]; discriminate).
  reflexivity.
Qed.

Lemma chain_run_empty (bases : list ascii) (i : Z) :
  chain_run [] 0 i bases = ([], 0).
Proof.
  revert i. induction bases as [|c rest IH]; intros i; [reflexivity|].
  cbn [chain_run]. rewrite chain_step_empty, IH. reflexivity.
Qed.

Lemma DFA_step_empty (symbol : string) :
  DFA_step (DFA_init "") symbol = Ok (DFA_init "", (0, false)).
Proof.
  destruct (decide (Py.upper symbol ∈ ["A"; "T"; "G"; "C"]%string)) as [Hin|Hout].
  - destruct (base_symbol_single symbol Hin) as [c ->].
    pose proof (DFA_step_chain "" 0 c (state_ok_0 _)) as Hstep.
    change (Py.chars (Py.upper "")) with (@nil ascii) in Hstep.
    rewrite chain_step_empty in Hstep. cbn [fst] in Hstep.
    now rewrite DFA_init_reset in Hstep.
  - unfold DFA_step. rewrite DFA_init_alphabet, decide_False by exact Hout.
    reflexivity.
Qed.

(** C9: the DFA engine built from the empty pattern never matches.  In every
    configuration it can be brought into, [find_all_matches] returns the
    empty list on every sequence and [step] returns state 0 with the accept
    flag false on every symbol; and its table sends every symbol of the
    alphabet from state 0 to state 0. *)
Theorem DFA_empty_pattern_never_matches :
  (∀ e S, reachable_from (DFA_engine (DFA_init "")) e →
          ∃ e', find_all_matches e S = Ok ([], e')) ∧
  (∀ e symbol, reachable_from (DFA_engine (DFA_init "")) e →
               ∃ e', step e symbol = Ok (e', (StateId 0, false))) ∧
  (∀ sym, In sym (alphabet (DFA_init "")) →
          transitions (DFA_init "") !! (0, sym) = Some 0).
Proof.
  assert (Hconf : ∀ e, reachable_from (DFA_engine (DFA_init "")) e →
                       e = DFA_engine (DFA_init "")).
  { intros e He. apply DFA_reachable_inv in He as [q [Hq ->]].
    unfold state_ok in Hq. cbn in Hq.
    assert (q = 0) as -> by lia. now rewrite DFA_init_reset. }
  split; [|split].
  - intros e S He. rewrite (Hconf e He). cbn [find_all_matches].
    pose proof (DFA_find_all_matches_chain "" 0 S) as Hrun.
    change (Py.chars (Py.upper "")) with (@nil ascii) in Hrun.
    rewrite chain_run_empty, DFA_init_reset in Hrun.
    rewrite Hrun. eexists. reflexivity.
  - intros e symbol He. rewrite (Hconf e He). cbn [step].
    rewrite DFA_step_empty. eexists. reflexivity.
  - intros sym Hsym. rewrite DFA_init_transitions_empty by reflexivity.
    rewrite DFA_init_alphabet in Hsym. apply list_elem_of_In in Hsym.
    rewrite decide_True by (split; [reflexivity | exact Hsym]).
    reflexivity.
Qed.

Lemma DFA_empty_pattern_never_matches_witness :
  (∃ e', find_all_matches (reset (DFA_engine (DFA_init ""))) "GATTACA"
         = Ok ([], e')) ∧
  (∃ e', step (reset (DFA_engine (DFA_init ""))) "A" = Ok (e', (StateId 0, false))) ∧
  transitions (DFA_init "") !! (0, "A"%string) = Some 0.
Proof.
  destruct DFA_empty_pattern_never_matches as (Hfind & Hstep & Hloop).
  assert (Hreach : reachable_from (DFA_engine (DFA_init ""))
                                  (reset (DFA_engine (DFA_init ""))))
    by (apply reachable_reset, reachable_start).
  split; [|split].
  - apply Hfind. exact Hreach.
  - apply Hstep. exact Hreach.
  - apply Hloop. vm_compute. left. reflexivity.
Defined.

(** * The palindrome finder *)

Section Expand.

Variable p : PDA.
Variable s : string.

Lemma index_Some (i : Z) :
  0 ≤ i < Py.len s → ∃ c, Py.index s i = Some (String c EmptyString).
Proof.
  intros Hi. rewrite index_nonneg by lia.
  destruct (lookup_lt_is_Some_2 (Py.chars s) (Z.to_nat i)) as [c Hc].
  - rewrite len_chars in Hi. lia.
  - exists c. now rewrite Hc.
Qed.

Lemma complements_spec (l r : Z) :
  complements s l r = true ↔ 0 ≤ l ∧ r < Py.len s ∧ complement_pair s l r.
Proof.
  unfold complements, complement_pair.
  rewrite andb_true_iff, bool_decide_eq_true. split.
  - intros [[Hl Hr] H].
    destruct (Py.index s l) as [a|]; [|discriminate].
    destruct (Py.index s r) as [b|]; [|discriminate].
    apply bool_decide_eq_true in H. eauto 10.
  - intros (Hl & Hr & a & b & -> & -> & Hab).
    split; [tauto|]. now apply bool_decide_eq_true.
Qed.

(** The guard never raises: [expand] keeps [l < r]. *)
Lemma expand_guard_spec (l r : Z) :
  l < r → expand_guard s (Py.len s) l r = Ok (complements s l r).
Proof.
  intros Hlr. unfold expand_guard, complements.
  destruct (decide (0 ≤ l)) as [Hl|Hl].
  2:{ rewrite bool_decide_eq_false_2 by tauto. reflexivity. }
  destruct (decide (r < Py.len s)) as [Hr|Hr].
  2:{ rewrite bool_decide_eq_false_2 by tauto. reflexivity. }
  rewrite bool_decide_eq_true_2 by tauto.
  destruct (index_Some l) as [a ->]; [lia|].
  destruct (index_Some r) as [b ->]; [lia|].
  reflexivity.
Qed.

(** The loop runs until its guard fails: the fuel [l + 1] is never the
    reason it stops. *)
Lemma expand_loop_exit (fuel : nat) (l r : Z) :
  l < r → (Z.to_nat (l + 1) ≤ fuel)%nat →
  ∃ k : nat,
    expand_loop fuel s (Py.len s) l r = Ok (l - Z.of_nat k, r + Z.of_nat k) ∧
    (∀ j : nat, (j < k)%nat →
        complements s (l - Z.of_nat j) (r + Z.of_nat j) = true) ∧
    complements s (l - Z.of_nat k) (r + Z.of_nat k) = false.
Proof.
  revert l r. induction fuel as [|fuel IH]; intros l r Hlr Hfuel.
  - exists 0%nat. cbn [expand_loop]. rewrite Z.sub_0_r, Z.add_0_r.
    split; [reflexivity|]. split; [intros j Hj; lia|].
    unfold complements. rewrite bool_decide_eq_false_2 by lia. reflexivity.
  - cbn [expand_loop]. rewrite expand_guard_spec by exact Hlr.
    cbn [mbind result_bind].
    destruct (complements s l r) eqn:Hgo.
    + assert (0 ≤ l) by (apply complements_spec in Hgo; tauto).
      destruct (IH (l - 1) (r + 1)) as (k & Hrun & Hin & Hout); [lia | lia |].
      exists (S k). rewrite Hrun.
      replace (l - Z.of_nat (S k)) with (l - 1 - Z.of_nat k) by lia.
      replace (r + Z.of_nat (S k)) with (r + 1 + Z.of_nat k) by lia.
      split; [reflexivity|]. split; [|exact Hout].
      intros [|j] Hj.
      * now rewrite Z.sub_0_r, Z.add_0_r.
      * replace (l - Z.of_nat (S j)) with (l - 1 - Z.of_nat j) by lia.
        replace (r + Z.of_nat (S j)) with (r + 1 + Z.of_nat j) by lia.
        apply Hin. lia.
    + exists 0%nat. rewrite Z.sub_0_r, Z.add_0_r.
      split; [reflexivity|]. split; [intros j Hj; lia | exact Hgo].
Qed.

Lemma radius_unique (i : Z) (k1 k2 : nat) :
  radius s i k1 → radius s i k2 → k1 = k2.
Proof.
  intros [Hin1 Hout1] [Hin2 Hout2].
  destruct (lt_eq_lt_dec k1 k2) as [[Hlt|Heq]|Hgt]; [|exact Heq|].
  - rewrite (Hin2 k1 Hlt) in Hout1. discriminate.
  - rewrite (Hin1 k2 Hgt) in Hout2. discriminate.
Qed.

(** The window [expand(i, i + 1)] considers, and what it does with it. *)
Lemma expand_spec (matches : list window) (i : Z) :
  ∃ k : nat,
    radius s i k ∧
    expand p s (Py.len s) matches i (i + 1)
    = Ok (if decide (min_len p ≤ 2 * Z.of_nat k)
          then matches ++ [(i - Z.of_nat k + 1, i + Z.of_nat k)]
          else matches).
Proof.
  destruct (expand_loop_exit (Z.to_nat (i + 1)) i (i + 1))
    as (k & Hrun & Hin & Hout); [lia | lia |].
  exists k. split; [split; assumption|].
  unfold expand. rewrite Hrun. cbn [mbind result_bind].
  replace (i + 1 + Z.of_nat k - 1 - (i - Z.of_nat k + 1) + 1)
    with (2 * Z.of_nat k) by lia.
  replace (i + 1 + Z.of_nat k - 1) with (i + Z.of_nat k) by lia.
  destruct (decide (min_len p ≤ 2 * Z.of_nat k)); reflexivity.
Qed.

(** The windows collected by the loop over the centres. *)
Lemma PDA_centers_spec (centers : list Z) (matches : list window) :
  ∃ found,
    PDA_centers p s (Py.len s) centers matches = Ok (matches ++ found) ∧
    ∀ w, w ∈ found ↔
         ∃ i k, i ∈ centers ∧ radius s i k ∧ min_len p ≤ 2 * Z.of_nat k ∧
                w = (i - Z.of_nat k + 1, i + Z.of_nat k).
Proof.
  revert matches. induction centers as [|i rest IH]; intros matches.
  - exists []. cbn. rewrite app_nil_r. split; [reflexivity|].
    intros w. split.
    + intros H. inversion H.
    + intros (i & k & Hi & _). inversion Hi.
  - cbn [PDA_centers].
    destruct (expand_spec matches i) as (k & Hk & ->). cbn [mbind result_bind].
    destruct (decide (min_len p ≤ 2 * Z.of_nat k)) as [Hlong|Hshort].
    + destruct (IH (matches ++ [(i - Z.of_nat k + 1, i + Z.of_nat k)]))
        as (found & -> & Hfound).
      exists ((i - Z.of_nat k + 1, i + Z.of_nat k) :: found).
      split; [now rewrite <- app_assoc|].
      intros w. rewrite elem_of_cons, Hfound. split.
      * intros [->|(i' & k' & Hi' & H')].
        -- exists i, k. split; [now left|]. split; [exact Hk|].
           split; [exact Hlong | reflexivity].
        -- exists i', k'. split; [now right | exact H'].
      * intros (i' & k' & Hi' & Hr' & Hlen' & ->).
        apply elem_of_cons in Hi' as [->|Hi'].
        -- left. now rewrite (radius_unique i k' k Hr' Hk).
        -- right. exists i', k'. tauto.
    + destruct (IH matches) as (found & -> & Hfound).
      exists found. split; [reflexivity|].
      intros w. rewrite Hfound. split.
      * intros (i' & k' & Hi' & H'). exists i', k'. split; [now right | exact H'].
      * intros (i' & k' & Hi' & Hr' & Hlen' & ->).
        apply elem_of_cons in Hi' as [->|Hi'].
        -- exfalso. rewrite (radius_unique i k' k Hr' Hk) in Hlen'. lia.
        -- exists i', k'. tauto.
Qed.

End Expand.

Section SortedSet.

Global Instance window_le_total : Total window_le.
Proof. intros [a b] [c d]. unfold window_le. cbn. lia. Qed.

Global Instance window_le_trans : Transitive window_le.
Proof. intros [a b] [c d] [e f]. unfold window_le. cbn. lia. Qed.

Lemma elem_of_sorted_set (ms : list window) (w : window) :
  w ∈ sorted_set ms ↔ w ∈ ms.
Proof.
  unfold sorted_set. rewrite merge_sort_Permutation. apply elem_of_remove_dups.
Qed.

Lemma NoDup_sorted_set (ms : list window) : NoDup (sorted_set ms).
Proof.
  unfold sorted_set. rewrite merge_sort_Permutation. apply NoDup_remove_dups.
Qed.

Lemma Sorted_sorted_set (ms : list window) : Sorted window_le (sorted_set ms).
Proof. unfold sorted_set. apply Sorted_merge_sort. apply _. Qed.

End SortedSet.

(** [PDA.find_all_matches] returns on every sequence, leaves the engine as it
    found it, and reports exactly the windows of the centres
    [0 .. len(s) - 2] that are long enough, sorted and without duplicates. *)
Lemma PDA_find_all_matches_spec (p : PDA) (S : string) :
  ∃ ms,
    PDA_find_all_matches p S = Ok (ms, p) ∧
    NoDup ms ∧ Sorted window_le ms ∧
    ∀ w, w ∈ ms ↔
         ∃ i k, 0 ≤ i < Py.len (Py.upper S) - 1 ∧ radius (Py.upper S) i k ∧
                min_len p ≤ 2 * Z.of_nat k ∧
                w = (i - Z.of_nat k + 1, i + Z.of_nat k).
Proof.
  unfold PDA_find_all_matches. cbv zeta.
  destruct (PDA_centers_spec p (Py.upper S) (seqZ 0 (Py.len (Py.upper S) - 1)) [])
    as (found & -> & Hfound).
  cbn [mbind result_bind app].
  exists (sorted_set found). split; [reflexivity|].
  split; [apply NoDup_sorted_set|]. split; [apply Sorted_sorted_set|].
  intros w. rewrite elem_of_sorted_set, Hfound.
  split; intros (i & k & Hi & H); exists i, k; (split; [|exact H]).
  - apply elem_of_seqZ in Hi. lia.
  - apply elem_of_seqZ. lia.
Qed.

(** A window of radius [k] around a centre, read from the left end. *)
Lemma radius_left_half (s : string) (i : Z) (k : nat) (j : Z) :
  radius s i k → 0 ≤ j < Z.of_nat k →
  complement_pair s (i - Z.of_nat k + 1 + j) (i + Z.of_nat k - j).
Proof.
  intros [Hin _] Hj.
  specialize (Hin (Z.to_nat (Z.of_nat k - 1 - j)) ltac:(lia)).
  apply complements_spec in Hin as (_ & _ & Hpair).
  replace (i - Z.of_nat (Z.to_nat (Z.of_nat k - 1 - j)))
    with (i - Z.of_nat k + 1 + j) in Hpair by lia.
  replace (i + 1 + Z.of_nat (Z.to_nat (Z.of_nat k - 1 - j)))
    with (i + Z.of_nat k - j) in Hpair by lia.
  exact Hpair.
Qed.

Lemma radius_inside (s : string) (i : Z) (k : nat) :
  radius s i k → (0 < k)%nat →
  0 ≤ i - Z.of_nat k + 1 ∧ i + Z.of_nat k < Py.len s.
Proof.
  intros [Hin _] Hk. specialize (Hin (k - 1)%nat ltac:(lia)).
  apply complements_spec in Hin. lia.
Qed.

(** [_comp] is an involution wherever it does not answer ["?"]. *)
Lemma _comp_involutive (a b : string) :
  _comp a = b → b ≠ "?"%string → _comp b = a.
Proof.
  unfold _comp. intros <- Hb.
  repeat (case_decide; subst; try reflexivity; try discriminate).
  contradiction.
Qed.

Lemma complement_pair_sym (s : string) (l r : Z) :
  0 ≤ r →
  "?"%char ∉ Py.chars s →
  complement_pair s l r → complement_pair s r l.
Proof.
  intros Hr Hs (a & b & Ha & Hb & Hab). exists b, a.
  split; [exact Hb|]. split; [exact Ha|].
  apply _comp_involutive; [exact Hab|].
  intros ->. apply Hs. rewrite index_nonneg in Hb by exact Hr.
  destruct (Py.chars s !! Z.to_nat r) as [c|] eqn:Hc; [|discriminate].
  cbn in Hb. injection Hb as ->. now apply list_elem_of_lookup_2 in Hc.
Qed.

(** What holds of every window the palindrome finder reports: it is at least
    [min_len] long, of even length, inside the sequence, maximal, and its left
    half is complementary to its right half read backwards.  When the
    character ["?"], the default answer of [_comp], does not occur in the
    sequence, the right half is complementary to the left half as well. *)
Lemma PDA_matches_sound (p : PDA) (S : string) (ms : list window) (p' : PDA)
    (w : window) :
  PDA_find_all_matches p S = Ok (ms, p') →
  In w ms →
  min_len p ≤ w.2 - w.1 + 1 ∧
  Z.even (w.2 - w.1 + 1) = true ∧
  0 ≤ w.1 ∧ w.2 < Py.len (Py.upper S) ∧
  not_extendable (Py.upper S) w ∧
  (∀ j, 0 ≤ j ∧ 2 * j < w.2 - w.1 →
        complement_pair (Py.upper S) (w.1 + j) (w.2 - j)) ∧
  ("?"%char ∉ Py.chars (Py.upper S) → complement_palindrome (Py.upper S) w).
Proof.
  intros Hfind Hw.
  destruct (PDA_find_all_matches_spec p S) as (ms' & Hfind' & _ & _ & Hms).
  rewrite Hfind' in Hfind. injection Hfind as <- _.
  apply list_elem_of_In, Hms in Hw as (i & k & Hi & Hrad & Hlen & ->).
  cbn [fst snd].
  replace (i + Z.of_nat k - (i - Z.of_nat k + 1) + 1) with (2 * Z.of_nat k) by lia.
  split; [exact Hlen|].
  split; [now rewrite Z.even_mul|].
  destruct (Nat.eq_dec k 0%nat) as [->|Hk].
  - (* an empty window is never long enough for a constructed engine, but
       the record [p] is arbitrary here *)
    destruct Hrad as [_ Hout]. cbn in *.
    rewrite Z.sub_0_r, Z.add_0_r in *.
    split; [lia|]. split; [lia|].
    split.
    { unfold not_extendable. cbn [fst snd].
      right. right. intros Hpair. replace (i + 1 - 1) with i in Hpair by lia.
      assert (complements (Py.upper S) i (i + 1) = true)
        by (apply complements_spec; split; [lia|]; split; [lia | exact Hpair]).
      congruence. }
    split; [intros j Hj; lia|].
    intros _. unfold complement_palindrome. cbn [fst snd].
    split; [lia|]. split; [lia|]. intros j Hj. lia.
  - destruct (radius_inside _ _ _ Hrad) as [Hlo Hhi]; [lia|].
    split; [exact Hlo|]. split; [exact Hhi|].
    split.
    { unfold not_extendable. cbn [fst snd].
      destruct (decide (i - Z.of_nat k + 1 = 0)) as [?|?]; [left; assumption|].
      destruct (decide (i + Z.of_nat k = Py.len (Py.upper S) - 1)) as [?|?];
        [right; left; assumption|].
      right. right. intros Hpair. destruct Hrad as [_ Hout].
      replace (i - Z.of_nat k + 1 - 1) with (i - Z.of_nat k) in Hpair by lia.
      replace (i + Z.of_nat k + 1) with (i + 1 + Z.of_nat k) in Hpair by lia.
      assert (complements (Py.upper S) (i - Z.of_nat k) (i + 1 + Z.of_nat k) = true)
        by (apply complements_spec; split; [lia|]; split; [lia | exact Hpair]).
      congruence. }
    split.
    { intros j Hj. apply radius_left_half; [exact Hrad | lia]. }
    intros Hs. unfold complement_palindrome. cbn [fst snd].
    split; [exact Hlo|]. split; [exact Hhi|].
    intros j Hj.
    destruct (decide (j < Z.of_nat k)) as [Hleft|Hright].
    + apply radius_left_half; [exact Hrad | lia].
    + apply complement_pair_sym; [lia | exact Hs |].
      pose proof (radius_left_half _ _ _ (2 * Z.of_nat k - 1 - j) Hrad
                    ltac:(lia)) as Hpair.
      replace (i - Z.of_nat k + 1 + (2 * Z.of_nat k - 1 - j))
        with (i + Z.of_nat k - j) in Hpair by lia.
      replace (i + Z.of_nat k - (2 * Z.of_nat k - 1 - j))
        with (i - Z.of_nat k + 1 + j) in Hpair by lia.
      exact Hpair.
Qed.

Lemma complement_palindromeb_spec (s : string) (w : window) :
  complement_palindromeb s w = true ↔ complement_palindrome s w.
Proof.
  unfold complement_palindromeb, complement_palindrome.
  rewrite andb_true_iff, bool_decide_eq_true, forallb_forall. split.
  - intros [[Hlo Hhi] Hall]. split; [exact Hlo|]. split; [exact Hhi|].
    intros j Hj. specialize (Hall j).
    rewrite <- list_elem_of_In, elem_of_seqZ in Hall.
    apply complements_spec in Hall; [tauto | lia].
  - intros (Hlo & Hhi & Hall). split; [tauto|].
    intros j Hj. apply list_elem_of_In, elem_of_seqZ in Hj.
    apply complements_spec. split; [lia|]. split; [lia|]. apply Hall. lia.
Qed.

(** The minimum length of an engine is fixed by its constructor. *)
Lemma PDA_reachable_inv (pat : string) (m : Z) (e : engine) :
  reachable_from (PDA_engine (PDA_init pat m)) e →
  ∃ p, e = PDA_engine p ∧ min_len p = Z.max 2 m.
Proof.
  induction 1 as [|e Hreach IH|e e' symbol out Hreach IH Hstep
                  |e e' S ms Hreach IH Hfind].
  - eexists. split; reflexivity.
  - destruct IH as (p & -> & Hmin). eexists. split; [reflexivity | exact Hmin].
  - destruct IH as (p & -> & Hmin). cbn in Hstep.
    injection Hstep as <- _. eexists. split; [reflexivity|].
    case_decide; exact Hmin.
  - destruct IH as (p & -> & Hmin). cbn [find_all_matches] in Hfind.
    destruct (PDA_find_all_matches_spec p S) as (ms' & Hfind' & _).
    rewrite Hfind' in Hfind. cbn in Hfind. injection Hfind as _ <-.
    eexists. split; [reflexivity | exact Hmin].
Qed.

Lemma PDA_reachable_min_len (p : PDA) :
  reachable (PDA_engine p) → 2 ≤ min_len p.
Proof.
  intros (e0 & Hc & Hreach). destruct Hc as [pat|pat m].
  - apply DFA_reachable_inv in Hreach as (q & _ & Heq). discriminate.
  - apply PDA_reachable_inv in Hreach as (p' & Heq & Hmin).
    injection Heq as ->. lia.
Qed.

Example PDA_scenario_GATC :
  PDA_find_all_matches (PDA_init "PALINDROME" PDA_default_min_len) "GATC"
  = Ok ([(0, 3)], PDA_init "PALINDROME" PDA_default_min_len).
Proof. vm_compute. reflexivity. Qed.

(** C3: every window the palindrome finder reports is to be a complement
    palindrome at every offset.  [_comp] answers ["?"] for a character that
    has no complement, and that answer is compared with the sequence: in
    ["NN??"] the pairs (["N"], ["?"]) pass the test of [expand], and the
    default engine reports the window [(0, 3)], in which the complement of
    [s[2]] is not [s[1]]. *)
Theorem PDA_reports_window_of_sentinels :
  PDA_find_all_matches (PDA_init "PALINDROME" PDA_default_min_len) "NN??"
  = Ok ([(0, 3)], PDA_init "PALINDROME" PDA_default_min_len) ∧
  ¬ complement_palindrome (Py.upper "NN??") (0, 3) ∧
  ¬ complement_pair (Py.upper "NN??") (0 + 2) (3 - 2).
Proof.
  split; [vm_compute; reflexivity|]. split.
  - rewrite <- complement_palindromeb_spec. vm_compute. discriminate.
  - intros (a & b & Ha & Hb & Hab). vm_compute in Ha, Hb.
    injection Ha as <-. injection Hb as <-. vm_compute in Hab. discriminate.
Qed.

(** C4 (as stated): no complement palindrome of length at least [min_len]
    is omitted.  The finder reports one window per centre between two
    characters, the largest.  In ["AGATCT"] the window [(1, 4)], ["GATC"], is
    a complement palindrome of length 4, and only [(0, 5)] is reported.  In
    ["A?T"] the window [(0, 2)] is a complement palindrome of length 3 (the
    complement of ["?"] is ["?"]), and no centre yields it. *)
Lemma PDA_omits_windows :
  ¬ reports_every_palindrome (PDA_init "PALINDROME" PDA_default_min_len) "AGATCT" ∧
  ¬ reports_every_palindrome (PDA_init "PALINDROME" 3) "A?T".
Proof.
  split; intros H.
  - destruct (H (1, 4)) as (ms & p' & Hfind & Hin).
    + apply complement_palindromeb_spec. vm_compute. reflexivity.
    + vm_compute. discriminate.
    + vm_compute in Hfind. injection Hfind as <- _.
      destruct Hin as [Heq|[]]. discriminate.
  - destruct (H (0, 2)) as (ms & p' & Hfind & Hin).
    + apply complement_palindromeb_spec. vm_compute. reflexivity.
    + vm_compute. discriminate.
    + vm_compute in Hfind. injection Hfind as <- _. destruct Hin.
Qed.

(** C4 (amended): for a PDA engine with minimum length [min_len], every
    window of the uppercased sequence that is a complement palindrome at
    every offset, has even length at least [min_len], and cannot be extended
    by one character on both sides (it starts at index 0, or ends at the last
    index, or the two characters around it are not complementary) appears in
    the list [find_all_matches] returns. *)
Theorem PDA_reports_maximal_windows (p : PDA) (S : string) (w : window) :
  reachable (PDA_engine p) →
  complement_palindrome (Py.upper S) w →
  min_len p ≤ w.2 - w.1 + 1 →
  Z.even (w.2 - w.1 + 1) = true →
  not_extendable (Py.upper S) w →
  ∃ ms, PDA_find_all_matches p S = Ok (ms, p) ∧ In w ms.
Proof.
  intros Hreach (Hlo & Hhi & Hpal) Hlen Heven Hmax.
  apply PDA_reachable_min_len in Hreach.
  destruct (PDA_find_all_matches_spec p S) as (ms & Hfind & _ & _ & Hms).
  exists ms. split; [exact Hfind|].
  apply list_elem_of_In, Hms.
  apply Z.even_spec in Heven as [k Hk].
  destruct w as [lo hi]. unfold not_extendable in Hmax. cbn [fst snd] in *.
  exists (lo + k - 1), (Z.to_nat k).
  rewrite Z2Nat.id by lia.
  split; [lia|]. split; [|split; [lia | f_equal; lia]].
  split.
  - intros j Hj. apply complements_spec.
    split; [lia|]. split; [lia|].
    specialize (Hpal (k - 1 - Z.of_nat j) ltac:(lia)).
    replace (lo + (k - 1 - Z.of_nat j)) with (lo + k - 1 - Z.of_nat j) in Hpal by lia.
    replace (hi - (k - 1 - Z.of_nat j)) with (lo + k - 1 + 1 + Z.of_nat j) in Hpal by lia.
    exact Hpal.
  - rewrite Z2Nat.id by lia. apply not_true_is_false. intros Hgo.
    apply complements_spec in Hgo as (Hl & Hr & Hpair).
    destruct Hmax as [H0|[Hend|Hno]]; [lia | lia |].
    apply Hno.
    replace (lo - 1) with (lo + k - 1 - k) by lia.
    replace (hi + 1) with (lo + k - 1 + 1 + k) by lia.
    exact Hpair.
Qed.

Lemma PDA_reports_maximal_windows_witness :
  ∃ ms, PDA_find_all_matches (PDA_init "PALINDROME" PDA_default_min_len) "gatc"
        = Ok (ms, PDA_init "PALINDROME" PDA_default_min_len) ∧ In (0, 3) ms.
Proof.
  apply (PDA_reports_maximal_windows
           (PDA_init "PALINDROME" PDA_default_min_len) "gatc" (0, 3)).
  - exists (PDA_engine (PDA_init "PALINDROME" PDA_default_min_len)).
    split; [apply constructed_PDA | apply reachable_start].
  - apply complement_palindromeb_spec. vm_compute. reflexivity.
  - vm_compute. discriminate.
  - vm_compute. reflexivity.
  - left. reflexivity.
Defined.

(** * Properties shared by the engines *)

Lemma reachable_cases (e : engine) :
  reachable e →
  (∃ pat q, state_ok (Py.chars (Py.upper pat)) q ∧
            e = DFA_engine (set_current_state (DFA_init pat) q)) ∨
  (∃ p, e = PDA_engine p).
Proof.
  intros (e0 & Hc & Hreach). destruct Hc as [pat|pat m].
  - left. apply DFA_reachable_inv in Hreach as (q & Hq & ->). eauto.
  - right. apply PDA_reachable_inv in Hreach as (p & -> & _). eauto.
Qed.

(** C6 (as stated): every engine is back in its initial configuration after
    [find_all_matches].  [PDA.find_all_matches] contains no call of [reset]:
    a PDA engine that has read one symbol still holds it on its stack after
    the search. *)
Lemma PDA_find_all_matches_keeps_configuration :
  let e := PDA_engine {| pda_pattern := "PALINDROME"; min_len := 4;
                         stack := ["A"%string]; pos := 1; mode := push |} in
  reachable e ∧ ¬ leaves_initial_configuration e "GATC".
Proof.
  split.
  - exists (PDA_engine (PDA_init "PALINDROME" PDA_default_min_len)).
    split; [apply constructed_PDA|].
    eapply (reachable_step _ _ _ "a"%string); [apply reachable_start|].
    vm_compute. reflexivity.
  - intros [ms Hfind]. vm_compute in Hfind. discriminate.
Qed.

(** C6 (amended): from every configuration an engine can be in,
    [find_all_matches] returns.  The DFA engine resets before the scan and
    again before returning, and is left in its initial configuration.  The
    PDA engine neither reads nor writes its configuration during the search,
    and is left exactly as it was. *)
Theorem find_all_matches_configuration (e : engine) (S : string) :
  reachable e →
  ∃ ms e',
    find_all_matches e S = Ok (ms, e') ∧
    match e with
    | DFA_engine _ => e' = reset e
    | PDA_engine _ => e' = e
    end.
Proof.
  intros Hreach.
  destruct (reachable_cases e Hreach) as [(pat & q & Hq & ->)|(p & ->)].
  - cbn [find_all_matches reset]. rewrite DFA_find_all_matches_chain.
    cbn [mbind result_bind]. do 2 eexists. split; [reflexivity|].
    unfold DFA_reset. cbn [set_current_state]. f_equal.
    symmetry. apply DFA_init_reset.
  - cbn [find_all_matches].
    destruct (PDA_find_all_matches_spec p S) as (ms & -> & _).
    cbn [mbind result_bind]. do 2 eexists. split; reflexivity.
Qed.

Lemma find_all_matches_configuration_witness :
  ∃ ms e',
    find_all_matches (reset (DFA_engine (DFA_init "ATG"))) "CATGATG"
    = Ok (ms, e') ∧
    e' = reset (reset (DFA_engine (DFA_init "ATG"))).
Proof.
  apply (find_all_matches_configuration
           (reset (DFA_engine (DFA_init "ATG"))) "CATGATG").
  exists (DFA_engine (DFA_init "ATG")).
  split; [apply constructed_DFA | apply reachable_reset, reachable_start].
Defined.

(** C7: [step] on a symbol that is none of A, T, G, C once uppercased (such
    as ["N"]) returns, with the accept flag false, on every engine in every
    configuration it can be in; the DFA engine is left in the state it was
    in. *)
Theorem step_foreign_symbol (e : engine) (symbol : string) :
  reachable e →
  ¬ In (Py.upper symbol) ["A"; "T"; "G"; "C"]%string →
  ∃ e' st,
    step e symbol = Ok (e', (st, false)) ∧
    match e with
    | DFA_engine d => e' = e ∧ st = StateId (current_state d)
    | PDA_engine _ => True
    end.
Proof.
  intros Hreach Hout. rewrite <- list_elem_of_In in Hout.
  destruct (reachable_cases e Hreach) as [(pat & q & Hq & ->)|(p & ->)].
  - cbn [step]. unfold DFA_step. cbn [alphabet set_current_state].
    rewrite DFA_init_alphabet, decide_False by exact Hout.
    cbn [mbind result_bind]. do 2 eexists. split; [reflexivity|].
    split; reflexivity.
  - cbn [step PDA_step mbind result_bind]. do 2 eexists.
    split; [reflexivity | exact I].
Qed.

Lemma step_foreign_symbol_witness :
  ∃ e' st,
    step (DFA_engine (DFA_init "ATG")) "N" = Ok (e', (st, false)) ∧
    e' = DFA_engine (DFA_init "ATG") ∧
    st = StateId (current_state (DFA_init "ATG")).
Proof.
  apply (step_foreign_symbol (DFA_engine (DFA_init "ATG")) "N").
  - exists (DFA_engine (DFA_init "ATG")).
    split; [apply constructed_DFA | apply reachable_start].
  - vm_compute. intros [H|[H|[H|[H|[]]]]]; discriminate.
Defined.

(** C10: after [reset()], two calls of [find_all_matches] in a row on the
    same sequence both return, with the same list of windows. *)
Theorem find_all_matches_repeatable (e : engine) (S : string) :
  reachable e →
  ∃ ms e1 e2,
    find_all_matches (reset e) S = Ok (ms, e1) ∧
    find_all_matches e1 S = Ok (ms, e2).
Proof.
  intros Hreach.
  destruct (reachable_cases e Hreach) as [(pat & q & Hq & ->)|(p & ->)].
  - cbn [reset find_all_matches]. unfold DFA_reset at 1.
    change (set_current_state (set_current_state (DFA_init pat) q) 0)
      with (set_current_state (DFA_init pat) 0).
    rewrite DFA_init_reset.
    pose proof (DFA_find_all_matches_chain pat 0 S) as Hrun.
    rewrite DFA_init_reset in Hrun. rewrite Hrun. cbn [mbind result_bind].
    do 3 eexists. split; [reflexivity|].
    cbn [find_all_matches]. rewrite Hrun. reflexivity.
  - cbn [reset find_all_matches].
    destruct (PDA_find_all_matches_spec (PDA_reset p) S) as (ms & Hfind & _).
    rewrite Hfind. cbn [mbind result_bind].
    do 3 eexists. split; [reflexivity|].
    cbn [find_all_matches]. rewrite Hfind. reflexivity.
Qed.

Lemma find_all_matches_repeatable_witness :
  ∃ ms e1 e2,
    find_all_matches (reset (PDA_engine (PDA_init "PALINDROME" 4))) "GATC"
    = Ok (ms, e1) ∧
    find_all_matches e1 "GATC" = Ok (ms, e2).
Proof.
  apply (find_all_matches_repeatable (PDA_engine (PDA_init "PALINDROME" 4)) "GATC").
  exists (PDA_engine (PDA_init "PALINDROME" 4)).
  split; [apply constructed_PDA | apply reachable_start].
Defined.

(** * The factory *)

(** C8: for a tag that is none of the four keys of the factory's dictionary,
    [create_automaton] raises [ValueError] with the message
    ["Unsupported automata type: "] followed by the tag, and returns no
    engine. *)
Theorem create_automaton_unsupported
    (TYPE_DFA TYPE_NFA TYPE_ENFA TYPE_PDA : string) (NFA EpsilonNFA : Type)
    (NFA_init : string → result NFA)
    (EpsilonNFA_init : string → result EpsilonNFA)
    (automata_type pat : string) :
  ¬ In automata_type [TYPE_DFA; TYPE_NFA; TYPE_ENFA; TYPE_PDA] →
  create_automaton TYPE_DFA TYPE_NFA TYPE_ENFA TYPE_PDA NFA EpsilonNFA
                   NFA_init EpsilonNFA_init automata_type pat
  = Raise (ValueError ("Unsupported automata type: " +:+ automata_type)).
Proof.
  intros Hout. unfold create_automaton, automaton_map.
  rewrite !lookup_insert_ne, lookup_empty; [reflexivity|..];
    intros ->; apply Hout; cbn; tauto.
Qed.

Lemma create_automaton_unsupported_witness :
  create_automaton "DFA" "NFA" "ENFA" "PDA" unit unit
                   (λ _, Ok ()) (λ _, Ok ()) "XYZ" "ATG"
  = Raise (ValueError "Unsupported automata type: XYZ").
Proof.
  apply (create_automaton_unsupported "DFA" "NFA" "ENFA" "PDA" unit unit
           (λ _, Ok ()) (λ _, Ok ()) "XYZ" "ATG").
  cbn. intros [H|[H|[H|[H|[]]]]]; discriminate.
Defined.

(** * Further properties of the DFA engine *)

Section ChainProgress.

Variable pl : list ascii.
Let n : Z := Z.of_nat (length pl).

(** A step advances the state by at most one, and accepts only from the last
    state, landing on state 0. *)
Lemma chain_step_progress (q : Z) (c : ascii) :
  state_ok pl q →
  (chain_step pl q c).1 ≤ q + 1 ∧
  ((chain_step pl q c).2 = true → q = n - 1 ∧ (chain_step pl q c).1 = 0).
Proof.
  unfold state_ok, chain_step, chain_delta. fold n. intros Hq.
  destruct (is_base c); cbn [fst snd]; [|split; [lia | discriminate]].
  split.
  - repeat case_decide; lia.
  - intros Hm. apply bool_decide_eq_true in Hm as [-> Hlook].
    split; [reflexivity|].
    rewrite decide_True by exact Hlook. rewrite decide_True by reflexivity.
    reflexivity.
Qed.

Lemma chain_run_state_ok (bases : list ascii) (q i : Z) :
  state_ok pl q → state_ok pl (chain_run pl q i bases).2.
Proof.
  revert q i. induction bases as [|c rest IH]; intros q i Hq; [exact Hq|].
  cbn [chain_run].
  assert (Hq' : state_ok pl (chain_step pl q c).1).
  { unfold chain_step. destruct (is_base c); [|exact Hq].
    unfold state_ok, chain_delta in *. cbn [fst].
    destruct (decide (pl !! Z.to_nat q = Some (Py.upper_char c))) as [Hm|Hm].
    - apply lookup_lt_Some in Hm. case_decide; lia.
    - case_decide as H1; [|lia]. destruct H1 as [H1 ?].
      apply lookup_lt_Some in H1. lia. }
  destruct (chain_step pl q c) as [q' m]. cbn [fst] in Hq'.
  specialize (IH q' (i + 1) Hq').
  destruct (chain_run pl q' (i + 1) rest) as [ws qf]. exact IH.
Qed.

(** In state [q] at index [i], no window reported later starts before
    [i - q] or ends after the last index scanned. *)
Lemma chain_run_bounds (bases : list ascii) (q i : Z) (w : window) :
  state_ok pl q →
  w ∈ (chain_run pl q i bases).1 →
  i - q ≤ w.1 ∧ w.2 < i + Z.of_nat (length bases).
Proof.
  revert q i. induction bases as [|c rest IH]; intros q i Hq.
  - cbn. intros H. inversion H.
  - cbn [chain_run].
    destruct (chain_step_progress q c Hq) as [Hadv Hacc].
    assert (Hq' : state_ok pl (chain_step pl q c).1).
    { pose proof (chain_run_state_ok [c] q i Hq) as H. cbn [chain_run] in H.
      destruct (chain_step pl q c). exact H. }
    destruct (chain_step pl q c) as [q' m]. cbn [fst snd] in *.
    specialize (IH q' (i + 1) Hq').
    destruct (chain_run pl q' (i + 1) rest) as [ws qf]. cbn [fst] in *.
    cbn [length]. rewrite elem_of_app. intros [Hw|Hw].
    + destruct m; [|inversion Hw]. apply list_elem_of_singleton in Hw. subst w.
      destruct (Hacc eq_refl) as [-> _]. cbn [fst snd]. subst n. lia.
    + apply IH in Hw. lia.
Qed.

(** The windows reported are pairwise disjoint, each ending before the next
    one starts. *)
Lemma chain_run_disjoint (bases : list ascii) (q i : Z) :
  state_ok pl q →
  StronglySorted (λ w1 w2 : window, w1.2 < w2.1) (chain_run pl q i bases).1.
Proof.
  revert q i. induction bases as [|c rest IH]; intros q i Hq.
  - constructor.
  - cbn [chain_run].
    destruct (chain_step_progress q c Hq) as [_ Hacc].
    assert (Hq' : state_ok pl (chain_step pl q c).1).
    { pose proof (chain_run_state_ok [c] q i Hq) as H. cbn [chain_run] in H.
      destruct (chain_step pl q c). exact H. }
    destruct (chain_step pl q c) as [q' m]. cbn [fst snd] in *.
    pose proof (λ w, chain_run_bounds rest q' (i + 1) w Hq') as Hlater.
    specialize (IH q' (i + 1) Hq').
    destruct (chain_run pl q' (i + 1) rest) as [ws qf]. cbn [fst] in *.
    destruct m; [|exact IH]. cbn [app]. constructor; [exact IH|].
    destruct (Hacc eq_refl) as [_ ->].
    apply Forall_forall. intros w Hw. apply Hlater in Hw. cbn. lia.
Qed.

End ChainProgress.

(** X1: on every sequence, bases or not, the windows [DFA.find_all_matches]
    reports are index ranges of the sequence, and they are pairwise disjoint:
    each one ends before the next one starts. *)
Theorem DFA_matches_disjoint (P S : string) :
  ∃ ms,
    DFA_find_all_matches (DFA_init P) S = Ok (ms, DFA_init P) ∧
    (∀ w, In w ms → 0 ≤ w.1 ∧ w.2 < Py.len S) ∧
    StronglySorted (λ w1 w2 : window, w1.2 < w2.1) ms.
Proof.
  pose proof (DFA_find_all_matches_chain P 0 S) as Hrun.
  rewrite DFA_init_reset in Hrun.
  eexists. split; [exact Hrun|]. split.
  - intros w Hw. apply list_elem_of_In in Hw.
    apply chain_run_bounds in Hw; [|apply state_ok_0].
    rewrite len_chars. lia.
  - apply chain_run_disjoint, state_ok_0.
Qed.

Section ChainComplete.

Variable pl : list ascii.
Let n : Z := Z.of_nat (length pl).

Lemma chain_run_app (l1 l2 : list ascii) (q i : Z) :
  chain_run pl q i (l1 ++ l2)
  = ((chain_run pl q i l1).1
       ++ (chain_run pl (chain_run pl q i l1).2 (i + Z.of_nat (length l1)) l2).1,
     (chain_run pl (chain_run pl q i l1).2 (i + Z.of_nat (length l1)) l2).2).
Proof.
  revert q i. induction l1 as [|c l1 IH]; intros q i.
  - cbn. rewrite Z.add_0_r. now destruct (chain_run pl q i l2).
  - cbn [app chain_run length]. destruct (chain_step pl q c) as [q' m].
    rewrite IH. destruct (chain_run pl q' (i + 1) l1) as [ws qf]. cbn [fst snd].
    replace (i + 1 + Z.of_nat (length l1)) with (i + Z.of_nat (S (length l1))) by lia.
    now rewrite <- app_assoc.
Qed.

(** From state [j], reading what is left of an occurrence of the pattern
    leads to its last state and to the accepting step. *)
Lemma chain_run_follow (rest after : list ascii) (lo : Z) (j : nat) :
  drop j pl = map Py.upper_char rest →
  (j < length pl)%nat →
  Forall (λ c, is_base c = true) rest →
  (lo, lo + n - 1)
  ∈ (chain_run pl (Z.of_nat j) (lo + Z.of_nat j) (rest ++ after)).1.
Proof.
  revert j. induction rest as [|c rest IH]; intros j Hdrop Hj Hbases.
  - exfalso. apply (f_equal (@length ascii)) in Hdrop.
    rewrite length_drop in Hdrop. cbn in Hdrop. lia.
  - apply Forall_cons in Hbases as [Hc Hrest].
    assert (Hlook : pl !! j = Some (Py.upper_char c)).
    { rewrite <- (Nat.add_0_r j), <- lookup_drop, Hdrop. reflexivity. }
    assert (Hdrop' : drop (S j) pl = map Py.upper_char rest).
    { replace (S j) with (j + 1)%nat by lia.
      rewrite <- drop_drop, Hdrop. reflexivity. }
    cbn [app chain_run]. unfold chain_step. rewrite Hc.
    unfold chain_delta. fold n. rewrite Nat2Z.id.
    rewrite decide_True by exact Hlook.
    destruct (decide (Z.of_nat j = n - 1)) as [Hlast|Hlast].
    + rewrite bool_decide_eq_true_2 by (split; assumption).
      destruct (chain_run pl 0 (lo + Z.of_nat j + 1) (rest ++ after)) as [ws qf].
      cbn [fst]. apply elem_of_app. left. apply list_elem_of_singleton.
      subst n. f_equal; lia.
    + rewrite bool_decide_eq_false_2 by (intros [? ?]; contradiction).
      specialize (IH (S j) Hdrop' ltac:(subst n; lia) Hrest).
      replace (lo + Z.of_nat (S j)) with (lo + Z.of_nat j + 1) in IH by lia.
      replace (Z.of_nat (S j)) with (Z.of_nat j + 1) in IH by lia.
      destruct (chain_run pl (Z.of_nat j + 1) (lo + Z.of_nat j + 1) (rest ++ after))
        as [ws qf]. cbn [fst app] in *. exact IH.
Qed.

End ChainComplete.

(** When the first character of the pattern occurs in it only once, an
    occurrence of the pattern is found from whatever state the chain is in
    when the occurrence begins. *)
Lemma chain_run_occurrence (pl occ after : list ascii) (q lo : Z) :
  pl ≠ [] →
  (∀ u rest, pl = u :: rest → u ∉ rest) →
  map Py.upper_char occ = pl →
  Forall (λ c, is_base c = true) occ →
  state_ok pl q →
  (lo, lo + Z.of_nat (length pl) - 1) ∈ (chain_run pl q lo (occ ++ after)).1.
Proof.
  intros Hne Huniq Hocc Hbases Hq.
  destruct (decide (q = 0)) as [->|Hq0].
  - pose proof (chain_run_follow pl occ after lo 0) as H.
    rewrite Z.add_0_r in H. apply H; [now rewrite drop_0| |exact Hbases].
    destruct pl; [contradiction | cbn; lia].
  - destruct occ as [|c occ]; [cbn in Hocc; congruence|].
    destruct pl as [|u pl']; [contradiction|].
    cbn [map] in Hocc. injection Hocc as Hu Hocc'.
    apply Forall_cons in Hbases as [Hc Hrest].
    assert (Hmis : (u :: pl') !! Z.to_nat q ≠ Some (Py.upper_char c)).
    { rewrite Hu. intros Hlook.
      destruct (Z.to_nat q) as [|k] eqn:Hk; [unfold state_ok in Hq; lia|].
      cbn in Hlook. apply list_elem_of_lookup_2 in Hlook.
      now apply (Huniq u pl' eq_refl). }
    cbn [app chain_run]. unfold chain_step. rewrite Hc. unfold chain_delta.
    rewrite decide_False by exact Hmis.
    rewrite decide_True by (split; [cbn; now rewrite Hu | exact Hq0]).
    rewrite bool_decide_eq_false_2 by (intros [? ?]; contradiction).
    destruct pl' as [|u' pl''].
    + exfalso. unfold state_ok in Hq. cbn in Hq. lia.
    + pose proof (chain_run_follow (u :: u' :: pl'') occ after lo 1) as H.
      change (Z.of_nat 1) with 1 in H.
      destruct (chain_run (u :: u' :: pl'') 1 (lo + 1) (occ ++ after)) as [ws qf].
      cbn [fst app] in *. apply H.
      * cbn. exact (eq_sym Hocc').
      * cbn. lia.
      * exact Hrest.
Qed.


Lemma is_base_upper (c1 c2 : ascii) :
  Py.upper_char c1 = Py.upper_char c2 → is_base c1 = is_base c2.
Proof. unfold is_base. now intros ->. Qed.

(** An occurrence of the pattern cuts the sequence in three. *)
Lemma occurrence_split (P S : string) (w : window) :
  occurrence P S w →
  ∃ before occ after,
    Py.chars S = before ++ occ ++ after ∧
    Z.of_nat (length before) = w.1 ∧
    map Py.upper_char occ = Py.chars (Py.upper P) ∧
    w.2 = w.1 + Z.of_nat (length (Py.chars (Py.upper P))) - 1.
Proof.
  intros (Hlo & Hhi & Hlen & Hspell).
  rewrite len_chars in Hlen, Hhi.
  apply (f_equal Py.chars) in Hspell.
  rewrite chars_slice, (chars_upper S) in Hspell.
  set (cs := Py.chars S) in *. set (pl := Py.chars (Py.upper P)) in *.
  exists (take (Z.to_nat w.1) cs),
         (take (length pl) (drop (Z.to_nat w.1) cs)),
         (drop (length pl) (drop (Z.to_nat w.1) cs)).
  split; [now rewrite !take_drop|].
  split; [rewrite length_take; lia|].
  split; [|lia].
  rewrite <- List.firstn_map, <- List.skipn_map.
  replace (length pl) with (Z.to_nat (w.2 + 1 - w.1)) by lia.
  exact Hspell.
Qed.

(** X2: for a non-empty pattern of bases whose first character does not
    occur in it again, [DFA.find_all_matches] reports every occurrence of the
    pattern, in any sequence; on a sequence of bases it reports nothing
    else. *)
Theorem DFA_finds_every_occurrence (P S : string) :
  P ≠ EmptyString →
  all_bases P = true →
  first_char_unique P = true →
  ∃ ms,
    DFA_find_all_matches (DFA_init P) S = Ok (ms, DFA_init P) ∧
    (∀ w, occurrence P S w → In w ms) ∧
    (all_bases S = true → ∀ w, In w ms → occurrence P S w).
Proof.
  intros Hne HbasesP Huniq.
  pose proof (DFA_find_all_matches_chain P 0 S) as Hrun.
  rewrite DFA_init_reset in Hrun.
  eexists. split; [exact Hrun|]. split.
  - intros w Hocc. apply list_elem_of_In.
    destruct (occurrence_split P S w Hocc)
      as (before & occ & after & Hcs & Hstart & Hupper & Hend).
    set (pl := Py.chars (Py.upper P)) in *.
    assert (Hpl : pl ≠ []).
    { intros Hnil. apply Hne. apply chars_inj.
      subst pl. rewrite chars_upper in Hnil.
      destruct (Py.chars P); [reflexivity | discriminate]. }
    assert (Hfirst : ∀ u rest, pl = u :: rest → u ∉ rest).
    { intros u rest Heq. unfold first_char_unique in Huniq. fold pl in Huniq.
      rewrite Heq in Huniq. now apply bool_decide_eq_true in Huniq. }
    assert (Hocc_bases : Forall (λ c, is_base c = true) occ).
    { apply Forall_forall. intros c Hc.
      assert (Hin : Py.upper_char c ∈ pl).
      { rewrite <- Hupper. apply list_elem_of_In, in_map, list_elem_of_In, Hc. }
      subst pl. rewrite chars_upper in Hin.
      apply list_elem_of_In, in_map_iff in Hin as (p & Hp & Hin).
      rewrite <- (is_base_upper p c Hp).
      apply all_bases_Forall in HbasesP.
      rewrite Forall_forall in HbasesP. apply HbasesP, list_elem_of_In, Hin. }
    rewrite Hcs, chain_run_app. cbn [fst]. apply elem_of_app. right.
    destruct w as [lo hi]. cbn [fst snd] in *.
    rewrite Z.add_0_l, Hstart, Hend.
    apply chain_run_occurrence; try assumption.
    apply chain_run_state_ok, state_ok_0.
  - intros HbasesS w Hw. apply list_elem_of_In in Hw.
    apply (DFA_scan_sound P S w HbasesS Hw).
Qed.

Lemma DFA_finds_every_occurrence_witness :
  ∃ ms,
    DFA_find_all_matches (DFA_init "atg") "CATGNNATGA" = Ok (ms, DFA_init "atg") ∧
    In (6, 8) ms.
Proof.
  destruct (DFA_finds_every_occurrence "atg" "CATGNNATGA") as (ms & Hrun & Hall & _).
  - discriminate.
  - vm_compute. reflexivity.
  - vm_compute. reflexivity.
  - exists ms. split; [exact Hrun|]. apply Hall.
    unfold occurrence, window_spells_pattern. cbn [fst snd].
    split; [lia|]. repeat split; vm_compute; reflexivity.
Defined.

(** * The getters of the DFA engine *)

(** X6: [get_transitions] shows the table in the nondeterministic format
    without changing it: it has the keys of [transitions], and the value at
    each key is the singleton of the successor state. *)
Theorem DFA_get_transitions_singletons (d : DFA) (k : Z * string) :
  DFA_get_transitions d !! k = (λ ns, {[ ns ]}) <$> (transitions d !! k).
Proof.
  unfold DFA_get_transitions.
  revert k. generalize (transitions d). intros m.
  apply (map_fold_weak_ind
           (λ (nd : gmap (Z * string) (gset Z)) (m : gmap (Z * string) Z),
              ∀ k, nd !! k = (λ ns, {[ ns ]}) <$> (m !! k))).
  - intros k. now rewrite !lookup_empty.
  - intros i x m' nd Hfresh IH k.
    rewrite (IH i), Hfresh. cbn [fmap option_fmap option_map default].
    rewrite (left_id_L ∅ (∪)).
    destruct (decide (i = k)) as [->|Hne].
    + now rewrite !lookup_insert_eq.
    + rewrite !lookup_insert_ne by exact Hne. apply IH.
Qed.

Lemma DFA_chain_target_range (pat : string) (i : Z) (sym : string) :
  0 ≤ i < Py.len pat →
  0 ≤ chain_target pat (Py.len pat) i sym < Py.len pat ∧
  chain_target pat (Py.len pat) i sym ≤ i + 1.
Proof.
  intros Hi. unfold chain_target.
  repeat case_decide; lia.
Qed.

(** X4: the table of an engine with a non-empty pattern is a total
    transition function on [get_states() x get_symbol_set()]: it has an entry
    for every state and symbol and for nothing else, and every entry leads to
    a state of [get_states()] that is at most one past its source. *)
Theorem DFA_table_closed (pat : string) (q : Z) (sym : string) :
  pat ≠ EmptyString →
  let d := DFA_init pat in
  (In q (DFA_get_states d) ∧ In sym (DFA_get_symbol_set d)
   ↔ is_Some (transitions d !! (q, sym))) ∧
  (∀ target, transitions d !! (q, sym) = Some target →
             In target (DFA_get_states d) ∧ target ≤ q + 1).
Proof.
  intros Hne d. subst d.
  assert (Hn : Py.len (Py.upper pat) ≠ 0).
  { rewrite len_upper. unfold Py.len. destruct pat; [contradiction | cbn; lia]. }
  unfold DFA_get_states, DFA_get_symbol_set.
  rewrite DFA_init_pattern, DFA_init_alphabet, DFA_init_transitions by exact Hn.
  rewrite <- !list_elem_of_In, elem_of_seqZ.
  split.
  - split.
    + intros [Hq Hsym]. rewrite decide_True by (split; [lia | exact Hsym]). eauto.
    + intros [target Htarget]. case_decide as H; [|discriminate].
      split; [lia | tauto].
  - intros target Htarget. case_decide as H; [|discriminate].
    injection Htarget as <-. rewrite <- list_elem_of_In, elem_of_seqZ.
    destruct (DFA_chain_target_range (Py.upper pat) q sym) as [Hrange Hstep];
      [tauto|].
    split; [lia | exact Hstep].
Qed.

Lemma DFA_table_closed_witness :
  (In 2 (DFA_get_states (DFA_init "ATG")) ∧
   In "A"%string (DFA_get_symbol_set (DFA_init "ATG"))
   ↔ is_Some (transitions (DFA_init "ATG") !! (2, "A"%string))) ∧
  (∀ target, transitions (DFA_init "ATG") !! (2, "A"%string) = Some target →
             In target (DFA_get_states (DFA_init "ATG")) ∧ target ≤ 2 + 1).
Proof.
  apply (DFA_table_closed "ATG" 2 "A"). discriminate.
Defined.

(** X5: in every configuration of an engine with a non-empty pattern the
    current, initial and accepting states are states of [get_states()]; for
    the empty pattern [get_states()] is empty although the engine sits in
    state 0. *)
Theorem DFA_current_state_in_states (pat : string) (d : DFA) :
  reachable_from (DFA_engine (DFA_init pat)) (DFA_engine d) →
  (pat ≠ EmptyString →
   (∀ q, q ∈ DFA_get_current_states d ∪ DFA_get_initial_states d
             ∪ DFA_get_accept_states d →
         In q (DFA_get_states d))) ∧
  (pat = EmptyString → DFA_get_states d = [] ∧ DFA_get_current_states d = {[ 0 ]}).
Proof.
  intros Hreach. apply DFA_reachable_inv in Hreach as (q0 & Hq0 & Heq).
  injection Heq as ->.
  unfold DFA_get_states, DFA_get_current_states, DFA_get_initial_states,
    DFA_get_accept_states.
  cbn [pattern current_state set_current_state].
  rewrite DFA_init_pattern. unfold state_ok in Hq0. rewrite <- len_chars in Hq0.
  split.
  - intros Hne q Hq.
    assert (Hn : 0 < Py.len (Py.upper pat)).
    { rewrite len_upper. unfold Py.len. destruct pat; [contradiction | cbn; lia]. }
    apply list_elem_of_In, elem_of_seqZ.
    rewrite !elem_of_union, !elem_of_singleton in Hq. lia.
  - intros ->. unfold Py.len in Hq0. cbn in Hq0. split; [reflexivity|].
    assert (q0 = 0) as -> by lia. reflexivity.
Qed.

Lemma DFA_current_state_in_states_witness :
  In 0 (DFA_get_states (DFA_reset (DFA_init "ATG"))).
Proof.
  assert (Hreach : reachable_from (DFA_engine (DFA_init "ATG"))
                                  (DFA_engine (DFA_reset (DFA_init "ATG"))))
    by (apply (reachable_reset _ (DFA_engine (DFA_init "ATG"))), reachable_start).
  destruct (DFA_current_state_in_states "ATG" _ Hreach) as [H _].
  apply H; [discriminate|].
  apply elem_of_union_r. unfold DFA_get_accept_states.
  apply elem_of_singleton. reflexivity.
Defined.



(** * Further properties of the PDA engine *)

(** The stack after a run of steps, from a stack of at most 8 symbols. *)
Lemma PDA_feed_spec (symbols : list string) (p : PDA) :
  (length (stack p) ≤ 8)%nat →
  ∃ p',
    PDA_feed p symbols = Ok p' ∧
    stack p' = drop (length (stack p ++ map Py.upper symbols) - 8)
                    (stack p ++ map Py.upper symbols) ∧
    pos p' = pos p + Z.of_nat (length symbols) ∧
    mode p' = match symbols with
              | [] => mode p
              | _ :: _ =>
                  if decide (8 < length (stack p) + length symbols)%nat
                  then pop else push
              end ∧
    min_len p' = min_len p ∧ pda_pattern p' = pda_pattern p.
Proof.
  revert p. induction symbols as [|symbol rest IH]; intros p Hlen.
  - exists p. cbn [PDA_feed map length]. rewrite app_nil_r.
    replace (length (stack p) - 8)%nat with 0%nat by lia.
    repeat split. cbn. lia.
  - cbn [PDA_feed]. unfold PDA_step. cbn [mbind result_bind].
    rewrite length_app. cbn [length].
    destruct (decide (8 < Z.of_nat (length (stack p) + 1))) as [Hfull|Hroom].
    + (* the stack was full: the oldest symbol is dropped *)
      assert (Hstack : length (stack p) = 8%nat) by lia.
      destruct (stack p) as [|s0 st] eqn:Hst; [discriminate|].
      cbn [app tail].
      edestruct (IH {| pda_pattern := pda_pattern p; min_len := min_len p;
                       stack := st ++ [Py.upper symbol]; pos := pos p + 1;
                       mode := pop |})
        as (p' & -> & Hstack' & Hpos' & Hmode' & Hmin' & Hpat').
      { cbn [stack]. rewrite length_app. cbn in *. lia. }
      cbn [stack pos min_len pda_pattern mode] in *.
      exists p'. split; [reflexivity|].
      split.
      { rewrite Hstack'. cbn [map]. rewrite <- app_assoc. cbn [app length].
        set (T := st ++ Py.upper symbol :: map Py.upper rest).
        assert (HT : (8 ≤ length T)%nat).
        { subst T. rewrite length_app. cbn [length] in *. lia. }
        replace (S (length T) - 8)%nat with (S (length T - 8)) by lia.
        reflexivity. }
      split; [lia|]. split; [|split; assumption].
      rewrite Hmode'. rewrite length_app. cbn [length] in *.
      destruct rest; cbn [length]; repeat case_decide; try reflexivity; lia.
    + edestruct (IH {| pda_pattern := pda_pattern p; min_len := min_len p;
                       stack := stack p ++ [Py.upper symbol]; pos := pos p + 1;
                       mode := push |})
        as (p' & -> & Hstack' & Hpos' & Hmode' & Hmin' & Hpat').
      { cbn [stack]. rewrite length_app. cbn [length]. lia. }
      cbn [stack pos min_len pda_pattern mode] in *.
      exists p'. split; [reflexivity|].
      split.
      { rewrite Hstack'. cbn [map]. rewrite <- !app_assoc. reflexivity. }
      split; [lia|]. split; [|split; assumption].
      rewrite Hmode'. rewrite length_app. cbn [length] in *.
      destruct rest; cbn [length]; repeat case_decide; try reflexivity; lia.
Qed.

(** X7: after [reset()] and any number of steps, the stack of the PDA engine
    holds the last 8 symbols read, uppercased, oldest first (all of them when
    fewer than 8 were read), [pos] counts the symbols read, and the mode is
    [pop] exactly when more than 8 symbols were read. *)
Theorem PDA_stack_is_sliding_window (p : PDA) (symbols : list string) :
  ∃ p',
    PDA_feed (PDA_reset p) symbols = Ok p' ∧
    PDA_get_stack p' = drop (length symbols - 8) (map Py.upper symbols) ∧
    pos p' = Z.of_nat (length symbols) ∧
    PDA_get_control_state p'
    = (if decide (8 < length symbols)%nat then pop else push) ∧
    min_len p' = min_len p.
Proof.
  destruct (PDA_feed_spec symbols (PDA_reset p))
    as (p' & Hfeed & Hstack & Hpos & Hmode & Hmin & _); [cbn; lia|].
  cbn [PDA_reset stack pos mode min_len app length] in *.
  exists p'. split; [exact Hfeed|].
  rewrite length_map in Hstack.
  split; [exact Hstack|]. split; [lia|]. split; [|exact Hmin].
  unfold PDA_get_control_state. rewrite Hmode.
  destruct symbols; [|reflexivity].
  cbn [length]. rewrite decide_False by lia. reflexivity.
Qed.

Global Instance window_le_antisymm : AntiSymm (=) window_le.
Proof.
  intros [a b] [c d]. unfold window_le. cbn. intros H1 H2. f_equal; lia.
Qed.

Lemma StronglySorted_filter {A} (R : relation A) (P : A → Prop)
    `{∀ x, Decision (P x)} (l : list A) :
  StronglySorted R l → StronglySorted R (filter P l).
Proof.
  induction 1 as [|x l Hsorted IH Hall]; [constructor|].
  rewrite filter_cons. case_decide; [|exact IH].
  constructor; [exact IH|].
  apply Forall_forall. intros y Hy. apply list_elem_of_filter in Hy as [_ Hy].
  rewrite Forall_forall in Hall. now apply Hall.
Qed.

(** X8: the list [PDA.find_all_matches] returns is sorted by (start, end)
    and holds no window twice; the engine is handed back as it was. *)
Theorem PDA_matches_sorted (p : PDA) (S : string) :
  ∃ ms,
    PDA_find_all_matches p S = Ok (ms, p) ∧
    NoDup ms ∧ Sorted window_le ms.
Proof.
  destruct (PDA_find_all_matches_spec p S) as (ms & Hfind & Hnodup & Hsorted & _).
  exists ms. auto.
Qed.

(** X9: raising the minimum length only removes windows: the list returned
    with the larger minimum is the list returned with the smaller one,
    filtered by length. *)
Theorem PDA_min_len_filters (p1 p2 : PDA) (S : string) :
  min_len p1 ≤ min_len p2 →
  ∃ ms1 ms2,
    PDA_find_all_matches p1 S = Ok (ms1, p1) ∧
    PDA_find_all_matches p2 S = Ok (ms2, p2) ∧
    ms2 = filter (λ w : window, min_len p2 ≤ w.2 - w.1 + 1) ms1.
Proof.
  intros Hle.
  destruct (PDA_find_all_matches_spec p1 S) as (ms1 & Hf1 & Hnd1 & Hs1 & Hm1).
  destruct (PDA_find_all_matches_spec p2 S) as (ms2 & Hf2 & Hnd2 & Hs2 & Hm2).
  exists ms1, ms2. split; [exact Hf1|]. split; [exact Hf2|].
  apply (Sorted_unique window_le); [exact Hs2| |].
  - apply StronglySorted_Sorted, StronglySorted_filter.
    apply Sorted_StronglySorted; [apply _ | exact Hs1].
  - apply NoDup_Permutation; [exact Hnd2 | now apply NoDup_filter |].
    intros w. rewrite list_elem_of_filter, Hm1, Hm2. split.
    + intros (i & k & Hi & Hrad & Hlen & ->). cbn [fst snd].
      split; [lia|]. exists i, k.
      split; [exact Hi|]. split; [exact Hrad|]. split; [lia | reflexivity].
    + intros [Hlen (i & k & Hi & Hrad & Hlen1 & ->)]. cbn [fst snd] in Hlen.
      exists i, k.
      split; [exact Hi|]. split; [exact Hrad|]. split; [lia | reflexivity].
Qed.

Lemma PDA_min_len_filters_witness :
  ∃ ms1 ms2,
    PDA_find_all_matches (PDA_init "PALINDROME" 2) "AGATCTAT" = Ok (ms1, PDA_init "PALINDROME" 2) ∧
    PDA_find_all_matches (PDA_init "PALINDROME" 4) "AGATCTAT" = Ok (ms2, PDA_init "PALINDROME" 4) ∧
    ms2 = filter (λ w : window, min_len (PDA_init "PALINDROME" 4) ≤ w.2 - w.1 + 1) ms1.
Proof.
  apply (PDA_min_len_filters (PDA_init "PALINDROME" 2) (PDA_init "PALINDROME" 4)
           "AGATCTAT").
  vm_compute. discriminate.
Defined.

(** An even-length complement palindrome that cannot be extended is the
    window [expand] ends with at its centre. *)
Lemma palindrome_radius (s : string) (lo hi k : Z) :
  complement_palindrome s (lo, hi) →
  hi - lo + 1 = 2 * k → 1 ≤ k →
  not_extendable s (lo, hi) →
  0 ≤ lo + k - 1 < Py.len s - 1 ∧ radius s (lo + k - 1) (Z.to_nat k).
Proof.
  intros (Hlo & Hhi & Hpal) Hlen Hk Hmax.
  unfold not_extendable in Hmax. cbn [fst snd] in *.
  split; [lia|]. unfold radius. rewrite Z2Nat.id by lia. split.
  - intros j Hj. apply complements_spec.
    split; [lia|]. split; [lia|].
    specialize (Hpal (k - 1 - Z.of_nat j) ltac:(lia)).
    replace (lo + (k - 1 - Z.of_nat j)) with (lo + k - 1 - Z.of_nat j) in Hpal by lia.
    replace (hi - (k - 1 - Z.of_nat j)) with (lo + k - 1 + 1 + Z.of_nat j) in Hpal by lia.
    exact Hpal.
  - apply not_true_is_false. intros Hgo.
    apply complements_spec in Hgo as (Hl & Hr & Hpair).
    destruct Hmax as [H0|[Hend|Hno]]; [lia | lia |].
    apply Hno.
    replace (lo - 1) with (lo + k - 1 - k) by lia.
    replace (hi + 1) with (lo + k - 1 + 1 + k) by lia.
    exact Hpair.
Qed.

(** X10: on a sequence in which the character ["?"] does not occur, the
    windows [PDA.find_all_matches] reports are exactly the complement
    palindromes of even length at least [min_len] that cannot be extended by
    one character on both sides. *)
Theorem PDA_reports_exactly_maximal_palindromes (p : PDA) (S : string) :
  reachable (PDA_engine p) →
  "?"%char ∉ Py.chars (Py.upper S) →
  ∃ ms,
    PDA_find_all_matches p S = Ok (ms, p) ∧
    ∀ w, In w ms ↔
         complement_palindrome (Py.upper S) w ∧
         Z.even (w.2 - w.1 + 1) = true ∧
         min_len p ≤ w.2 - w.1 + 1 ∧
         not_extendable (Py.upper S) w.
Proof.
  intros Hreach Hclean. apply PDA_reachable_min_len in Hreach.
  destruct (PDA_find_all_matches_spec p S) as (ms & Hfind & _ & _ & Hms).
  exists ms. split; [exact Hfind|]. intros w. split.
  - intros Hw.
    destruct (PDA_matches_sound p S ms p w Hfind Hw)
      as (Hlen & Heven & _ & _ & Hmax & _ & Hpal).
    auto.
  - intros (Hpal & Heven & Hlen & Hmax).
    apply list_elem_of_In, Hms.
    apply Z.even_spec in Heven as [k Hk]. destruct w as [lo hi].
    cbn [fst snd] in *.
    destruct (palindrome_radius (Py.upper S) lo hi k Hpal Hk ltac:(lia) Hmax)
      as [Hcentre Hrad].
    exists (lo + k - 1), (Z.to_nat k). rewrite Z2Nat.id by lia.
    split; [exact Hcentre|]. split; [exact Hrad|].
    split; [lia | f_equal; lia].
Qed.

Lemma PDA_reports_exactly_maximal_palindromes_witness :
  ∃ ms,
    PDA_find_all_matches (PDA_init "PALINDROME" 4) "agatctn"
    = Ok (ms, PDA_init "PALINDROME" 4) ∧
    ∀ w, In w ms ↔
         complement_palindrome (Py.upper "agatctn") w ∧
         Z.even (w.2 - w.1 + 1) = true ∧
         min_len (PDA_init "PALINDROME" 4) ≤ w.2 - w.1 + 1 ∧
         not_extendable (Py.upper "agatctn") w.
Proof.
  apply (PDA_reports_exactly_maximal_palindromes (PDA_init "PALINDROME" 4) "agatctn").
  - exists (PDA_engine (PDA_init "PALINDROME" 4)).
    split; [apply constructed_PDA | apply reachable_start].
  - vm_compute. intros H. repeat (apply elem_of_cons in H as [H|H]; [discriminate|]).
    inversion H.
Defined.

(** * Case *)





(** * Further properties of the factory *)

(** X12: when the four tags of [AutomataType] are pairwise distinct, each
    tag builds its own engine: the DFA tag the DFA engine of the pattern, the
    PDA tag a PDA engine with minimum length 4 and the label ["PALINDROME"]
    in place of an empty pattern, and the two other tags whatever the
    constructors of their classes return or raise. *)
Theorem create_automaton_dispatch
    (TYPE_DFA TYPE_NFA TYPE_ENFA TYPE_PDA : string) (NFA EpsilonNFA : Type)
    (NFA_init : string → result NFA)
    (EpsilonNFA_init : string → result EpsilonNFA) (pat : string) :
  NoDup [TYPE_DFA; TYPE_NFA; TYPE_ENFA; TYPE_PDA] →
  let create := create_automaton TYPE_DFA TYPE_NFA TYPE_ENFA TYPE_PDA
                                 NFA EpsilonNFA NFA_init EpsilonNFA_init in
  create TYPE_DFA pat = Ok (Automaton_DFA (DFA_init pat)) ∧
  create TYPE_NFA pat = (a ← NFA_init pat; Ok (Automaton_NFA a)) ∧
  create TYPE_ENFA pat = (a ← EpsilonNFA_init pat; Ok (Automaton_ENFA a)) ∧
  create TYPE_PDA pat
  = Ok (Automaton_PDA
          (PDA_init (if decide (pat = EmptyString) then "PALINDROME"%string else pat)
                    4)).
Proof.
  intros Hdistinct create. subst create.
  apply NoDup_cons in Hdistinct as [H1 Hdistinct].
  apply NoDup_cons in Hdistinct as [H2 Hdistinct].
  apply NoDup_cons in Hdistinct as [H3 _].
  apply not_elem_of_cons in H1 as [H12 H1].
  apply not_elem_of_cons in H1 as [H13 H1].
  apply not_elem_of_cons in H1 as [H14 _].
  apply not_elem_of_cons in H2 as [H23 H2].
  apply not_elem_of_cons in H2 as [H24 _].
  apply not_elem_of_cons in H3 as [H34 _].
  unfold create_automaton, automaton_map.
  repeat split.
  - rewrite !lookup_insert_ne by congruence. now rewrite lookup_insert_eq.
  - rewrite !lookup_insert_ne by congruence. now rewrite lookup_insert_eq.
  - rewrite lookup_insert_ne by congruence. now rewrite lookup_insert_eq.
  - now rewrite lookup_insert_eq.
Qed.

Lemma create_automaton_dispatch_witness :
  let create := create_automaton "DFA" "NFA" "ENFA" "PDA" unit unit
                                 (λ _, Ok ()) (λ _, Raise IndexError) in
  create "DFA"%string "ATG"%string = Ok (Automaton_DFA (DFA_init "ATG")) ∧
  create "NFA"%string "ATG"%string = (a ← Ok (); Ok (Automaton_NFA a)) ∧
  create "ENFA"%string "ATG"%string = (a ← Raise IndexError; Ok (Automaton_ENFA a)) ∧
  create "PDA"%string "ATG"%string
  = Ok (Automaton_PDA
          (PDA_init (if decide ("ATG"%string = EmptyString)
                     then "PALINDROME"%string else "ATG"%string) 4)).
Proof.
  apply (create_automaton_dispatch "DFA" "NFA" "ENFA" "PDA" unit unit
           (λ _, Ok ()) (λ _, Raise IndexError) "ATG").
  apply (bool_decide_unpack _). vm_compute. exact I.
Defined.

(** X13: every tag [available_types] offers is a key of the factory's
    dictionary: [create_automaton] does not take its "unsupported" path for
    it, and runs the constructor stored under the tag. *)
Theorem available_types_supported
    (TYPE_DFA TYPE_NFA TYPE_ENFA TYPE_PDA : string) (NFA EpsilonNFA : Type)
    (NFA_init : string → result NFA)
    (EpsilonNFA_init : string → result EpsilonNFA)
    (tag label pat : string) :
  In (tag, label) (available_types TYPE_DFA TYPE_NFA TYPE_ENFA TYPE_PDA) →
  ∃ make,
    automaton_map TYPE_DFA TYPE_NFA TYPE_ENFA TYPE_PDA NFA EpsilonNFA
                  NFA_init EpsilonNFA_init pat !! tag = Some make ∧
    create_automaton TYPE_DFA TYPE_NFA TYPE_ENFA TYPE_PDA NFA EpsilonNFA
                     NFA_init EpsilonNFA_init tag pat = make ().
Proof.
  intros Hin.
  assert (Hkey : is_Some (automaton_map TYPE_DFA TYPE_NFA TYPE_ENFA TYPE_PDA
                            NFA EpsilonNFA NFA_init EpsilonNFA_init pat !! tag)).
  { unfold automaton_map. rewrite !lookup_insert_is_Some.
    unfold available_types in Hin. cbn [In] in Hin.
    destruct Hin as [H|[H|[H|[H|[]]]]]; injection H as -> _.
    - destruct (decide (TYPE_PDA = tag)); [tauto|].
      destruct (decide (TYPE_ENFA = tag)); [tauto|].
      destruct (decide (TYPE_NFA = tag)); tauto.
    - destruct (decide (TYPE_PDA = tag)); [tauto|].
      destruct (decide (TYPE_ENFA = tag)); tauto.
    - destruct (decide (TYPE_PDA = tag)); tauto.
    - tauto. }
  destruct Hkey as [make Hmake]. exists make. split; [exact Hmake|].
  unfold create_automaton. now rewrite Hmake.
Qed.

Lemma available_types_supported_witness :
  ∃ make,
    automaton_map "DFA" "NFA" "ENFA" "PDA" unit unit
                  (λ _, Ok ()) (λ _, Ok ()) "ATG" !! "PDA"%string = Some make ∧
    create_automaton "DFA" "NFA" "ENFA" "PDA" unit unit
                     (λ _, Ok ()) (λ _, Ok ()) "PDA" "ATG" = make ().
Proof.
  apply (available_types_supported "DFA" "NFA" "ENFA" "PDA" unit unit
           (λ _, Ok ()) (λ _, Ok ())
           "PDA" "PDA – Complement palindromes (hairpins)" "ATG").
  cbn. tauto.
Defined.

(** * The description of a state *)

Lemma Py_clip_range (s : string) (k : Z) : 0 ≤ Py_clip s k ≤ Py.len s.
Proof.
  unfold Py_clip. assert (0 ≤ Py.len s) by (unfold Py.len; lia).
  case_decide; lia.
Qed.

Lemma Py_clip_id (s : string) (k : Z) : 0 ≤ k ≤ Py.len s → Py_clip s k = k.
Proof. intros Hk. unfold Py_clip. case_decide; lia. Qed.

(** [s[:k] + s[k:] == s] for every integer [k]. *)
Lemma Py_prefix_suffix (s : string) (k : Z) : Py_prefix s k +:+ Py_suffix s k = s.
Proof.
  apply chars_inj. unfold Py_prefix, Py_suffix.
  rewrite chars_append, !chars_slice.
  pose proof (Py_clip_range s k) as Hc. rewrite len_chars in Hc.
  rewrite Z.sub_0_r. change (Z.to_nat 0) with 0%nat. rewrite drop_0.
  rewrite (take_ge (drop (Z.to_nat (Py_clip s k)) (Py.chars s))).
  - apply take_drop.
  - rewrite length_drop, len_chars. lia.
Qed.

(** X14: while a sequence of bases is fed to [step] from the reset state,
    the description of the current state, when that is not state 0, quotes as
    matched the symbols read last, uppercased, as many as the number of the
    state, and as needed the rest of the pattern; and for every integer
    [state] the two parts [get_state_description] quotes make up the
    pattern. *)
Theorem DFA_state_description_truthful (P S consumed rest : string) :
  all_bases S = true →
  S = consumed +:+ rest →
  ∃ d',
    DFA_feed (DFA_reset (DFA_init P)) (Py.chars consumed) = Ok d' ∧
    (current_state d' ≠ 0 →
     DFA_get_state_description d' (current_state d')
     = "Partial Match: '"
       +:+ Py.slice (Py.upper consumed)
                    (Py.len consumed - current_state d') (Py.len consumed)
       +:+ "' (need '"
       +:+ Py.slice (Py.upper P) (current_state d') (Py.len P)
       +:+ "')") ∧
    (∀ state, Py_prefix (pattern d') state +:+ Py_suffix (pattern d') state
              = Py.upper P).
Proof.
  intros Hbases ->.
  apply all_bases_Forall in Hbases. rewrite chars_append in Hbases.
  apply Forall_app in Hbases as [Hconsumed _].
  unfold DFA_reset.
  rewrite (DFA_feed_chain P 0 0) by apply state_ok_0.
  eexists. split; [reflexivity|].
  cbn [current_state pattern set_current_state]. rewrite DFA_init_pattern.
  split; [|intros state; apply Py_prefix_suffix].
  destruct (chain_run_inv (Py.chars (Py.upper P)) (Py.chars consumed) [] 0
              Hconsumed (chain_inv_nil _)) as [Hinv _].
  cbn [app length] in Hinv. change (Z.of_nat 0) with 0 in Hinv.
  set (q := (chain_run (Py.chars (Py.upper P)) 0 0 (Py.chars consumed)).2) in *.
  pose proof Hinv as [Hok _]. unfold state_ok in Hok. rewrite <- len_chars in Hok.
  apply chain_inv_slice in Hinv as [Hq Hslice].
  intros Hq0. unfold DFA_get_state_description.
  rewrite decide_False by exact Hq0.
  cbn [pattern set_current_state]. rewrite DFA_init_pattern.
  unfold Py_prefix, Py_suffix. rewrite Py_clip_id by lia.
  rewrite Hslice, len_upper. reflexivity.
Qed.

Lemma DFA_state_description_truthful_witness :
  ∃ d',
    DFA_feed (DFA_reset (DFA_init "ATG")) (Py.chars "cat") = Ok d' ∧
    (current_state d' ≠ 0 →
     DFA_get_state_description d' (current_state d')
     = "Partial Match: '"
       +:+ Py.slice (Py.upper "cat") (Py.len "cat" - current_state d') (Py.len "cat")
       +:+ "' (need '"
       +:+ Py.slice (Py.upper "ATG") (current_state d') (Py.len "ATG")
       +:+ "')") ∧
    (∀ state, Py_prefix (pattern d') state +:+ Py_suffix (pattern d') state
              = Py.upper "ATG").
Proof.
  apply (DFA_state_description_truthful "ATG" "catg" "cat" "g").
  - vm_compute. reflexivity.
  - reflexivity.
Defined.

Example DFA_state_description_AT :
  DFA_get_state_description (set_current_state (DFA_init "ATG") 2) 2
  = "Partial Match: 'AT' (need 'G')"%string.
Proof. vm_compute. reflexivity. Qed.

(** * Sequences with characters that are not bases *)

Section Skipping.

Variable pl : list ascii.

(** The chain reads a sequence as it reads the bases in it. *)
Lemma chain_run_skipping (bases pre : list ascii) (q : Z) :
  chain_inv pl (filter (λ c, is_base c = true) pre) q →
  chain_inv pl (filter (λ c, is_base c = true) (pre ++ bases))
            (chain_run pl q (Z.of_nat (length pre)) bases).2 ∧
  ∀ w, w ∈ (chain_run pl q (Z.of_nat (length pre)) bases).1 →
       ∃ before,
         map Py.upper_char
             (filter (λ c, is_base c = true)
                     (take (Z.to_nat (w.2 + 1)) (pre ++ bases)))
         = before ++ pl.
Proof.
  revert pre q. induction bases as [|c rest IH]; intros pre q Hinv.
  - cbn. rewrite app_nil_r. split; [exact Hinv|]. intros w H. inversion H.
  - cbn [chain_run]. unfold chain_step.
    assert (Hshape : (pre ++ [c]) ++ rest = pre ++ c :: rest)
      by (now rewrite <- app_assoc).
    assert (Hnext : Z.of_nat (length (pre ++ [c])) = Z.of_nat (length pre) + 1)
      by (rewrite length_app; cbn; lia).
    destruct (is_base c) eqn:Hc.
    + destruct (chain_delta_inv pl _ q c Hinv) as [Hinv' Hocc].
      destruct (chain_delta pl q (Py.upper_char c)) as [q' m]. cbn [fst snd] in *.
      assert (Hfilter : filter (λ c, is_base c = true) (pre ++ [c])
                        = filter (λ c, is_base c = true) pre ++ [c]).
      { rewrite filter_app, filter_cons_True by exact Hc. reflexivity. }
      rewrite <- Hfilter in Hinv'.
      specialize (IH (pre ++ [c]) q' Hinv'). rewrite Hshape, Hnext in IH.
      destruct (chain_run pl q' (Z.of_nat (length pre) + 1) rest) as [ws qf].
      cbn [fst snd] in *. destruct IH as [IHinv IHocc].
      split; [exact IHinv|]. intros w. rewrite elem_of_app. intros [Hw|Hw].
      * destruct m; [|inversion Hw].
        apply list_elem_of_singleton in Hw. subst w. cbn [snd].
        destruct (Hocc eq_refl) as [_ (before & after & Htext & Hstart)].
        cbn [fst] in Hstart.
        replace (Z.to_nat (Z.of_nat (length pre) + 1))
          with (length (pre ++ [c])) by (rewrite length_app; cbn; lia).
        rewrite <- Hshape, take_app_length, Hfilter.
        exists before. rewrite Htext.
        assert (Hafter : length after = 0%nat).
        { apply (f_equal (@length ascii)) in Htext.
          rewrite length_map, !length_app in Htext. cbn [length] in Htext. lia. }
        destruct after; [now rewrite app_nil_r | discriminate].
      * now apply IHocc.
    + assert (Hfilter : filter (λ c, is_base c = true) (pre ++ [c])
                        = filter (λ c, is_base c = true) pre).
      { rewrite filter_app, filter_cons_False by congruence.
        cbn. now rewrite app_nil_r. }
      rewrite <- Hfilter in Hinv.
      specialize (IH (pre ++ [c]) q Hinv). rewrite Hshape, Hnext in IH.
      destruct (chain_run pl q (Z.of_nat (length pre) + 1) rest) as [ws qf].
      cbn [fst snd app] in *. exact IH.
Qed.

End Skipping.

(** X15: on any sequence, bases or not, every window [DFA.find_all_matches]
    reports ends where the bases read so far end with the pattern: the bases
    among the characters of the sequence up to the end of the window,
    uppercased, have the uppercased pattern as a suffix. *)
Theorem DFA_window_ends_pattern_in_bases (P S : string) (ms : list window)
    (d' : DFA) (w : window) :
  DFA_find_all_matches (DFA_init P) S = Ok (ms, d') →
  In w ms →
  ∃ before,
    map Py.upper_char
        (filter (λ c, is_base c = true) (take (Z.to_nat (w.2 + 1)) (Py.chars S)))
    = before ++ Py.chars (Py.upper P).
Proof.
  intros Hfind Hw.
  pose proof (DFA_find_all_matches_chain P 0 S) as Hrun.
  rewrite DFA_init_reset in Hrun. rewrite Hrun in Hfind.
  injection Hfind as <- _. apply list_elem_of_In in Hw.
  destruct (chain_run_skipping (Py.chars (Py.upper P)) (Py.chars S) [] 0
              (chain_inv_nil _)) as [_ Hocc].
  apply (Hocc w Hw).
Qed.

Lemma DFA_window_ends_pattern_in_bases_witness :
  ∃ before,
    map Py.upper_char
        (filter (λ c, is_base c = true)
                (take (Z.to_nat ((1, 2).2 + 1)) (Py.chars "ANT")))
    = before ++ Py.chars (Py.upper "AT").
Proof.
  apply (DFA_window_ends_pattern_in_bases "AT" "ANT" [(1, 2)] (DFA_init "AT") (1, 2)).
  - vm_compute. reflexivity.
  - left. reflexivity.
Defined.

(** * No exception *)

(** X16: in every configuration an engine can be brought into, [step]
    returns on every symbol and [find_all_matches] returns on every sequence:
    the index [pattern[-1]] of [DFA.step] and the indices of [expand] are
    never out of range. *)
Theorem engines_never_raise (e : engine) (symbol S : string) :
  reachable e →
  (∃ e' out, step e symbol = Ok (e', out)) ∧
  (∃ ms e', find_all_matches e S = Ok (ms, e')).
Proof.
  intros Hreach.
  destruct (reachable_cases e Hreach) as [(pat & q & Hq & ->)|(p & ->)].
  - split.
    + destruct (DFA_step_total pat q symbol Hq) as (q' & m & Hstep & _).
      cbn [step]. rewrite Hstep. cbn [mbind result_bind]. eauto.
    + cbn [find_all_matches]. rewrite DFA_find_all_matches_chain.
      cbn [mbind result_bind]. eauto.
  - split.
    + cbn [step PDA_step mbind result_bind]. eauto.
    + cbn [find_all_matches].
      destruct (PDA_find_all_matches_spec p S) as (ms & -> & _).
      cbn [mbind result_bind]. eauto.
Qed.

Lemma engines_never_raise_witness :
  (∃ e' out, step (DFA_engine (DFA_init "")) "A" = Ok (e', out)) ∧
  (∃ ms e', find_all_matches (DFA_engine (DFA_init "")) "GATTACA" = Ok (ms, e')).
Proof.
  apply (engines_never_raise (DFA_engine (DFA_init "")) "A" "GATTACA").
  exists (DFA_engine (DFA_init "")).
  split; [apply constructed_DFA | apply reachable_start].
Defined.

(** Outside the configurations an engine can be in, [DFA.step] can raise:
    with the empty pattern and the state set to -1 by hand, [pattern[-1]] is
    evaluated. *)
Example DFA_step_raises_outside_reach :
  DFA_step (set_current_state (DFA_init "") (-1)) "A" = Raise IndexError.
Proof. vm_compute. reflexivity. Qed.
